(** * reclass.utils.refvalue: lexer, parser and renderer of [RefValue]

    A shallow embedding of [reclass/utils/refvalue.py].  Python [str]
    objects are lists of 8-bit characters, the [while] and [for] loops are
    iterated loop bodies with an explicit bound, exceptions are a constructor
    of the result type, and [self] is a record passed through the methods
    that assign to its attributes. *)

From Stdlib Require Import Ascii String DecimalString ZArith Bool Lia Arith List.
Import ListNotations.

Local Open Scope Z_scope.
Local Open Scope nat_scope.
Local Open Scope list_scope.

(** ** Python values used by the module *)

(** A Python 2 [str]. *)
Definition str : Type := list ascii.

(** A string literal of the source. *)
Definition lit (s : string) : str := list_ascii_of_string s.

Definition str_eqb (a b : str) : bool :=
  if list_eq_dec ascii_dec a b then true else false.

(** [sep.join(items)] *)
Fixpoint str_join (sep : str) (items : list str) : str :=
  match items with
  | [] => []
  | [x] => x
  | x :: rest => x ++ sep ++ str_join sep rest
  end.

(** [chars[a:b]] for [0 <= a] and [0 <= b]. *)
Definition slice (chars : str) (a b : nat) : str := firstn (b - a) (skipn a chars).

(** [chars[a:]] for [0 <= a]. *)
Definition slice_from (chars : str) (a : nat) : str := skipn a chars.

(** The candidates [i], [i+1], ..., [i+n-1] of [str.find], lowest first. *)
Fixpoint find_from (chars sub : str) (i n : nat) : Z :=
  match n with
  | O => (-1)%Z
  | S n' =>
      if str_eqb (slice chars i (i + length sub)) sub then Z.of_nat i
      else find_from chars sub (S i) n'
  end.

(** [chars.find(sub, start, stop)] for [0 <= start] and [0 <= stop]: the
    lowest index at which [sub] occurs inside [chars[start:stop]], or [-1]. *)
Definition find (chars sub : str) (start stop : nat) : Z :=
  let e := Nat.min stop (length chars) in
  if e <? start + length sub then (-1)%Z
  else find_from chars sub start (e - (start + length sub) + 1).

(** The objects the module compares with [==]: strings and the two-element
    tuples that tokens are. *)
Inductive pyobj : Type :=
| PyStr (s : str)
| PyTuple (first second : pyobj).

(** Python's [==] on these objects: a tuple never equals a string. *)
Fixpoint py_eq (x y : pyobj) : bool :=
  match x, y with
  | PyStr a, PyStr b => str_eqb a b
  | PyTuple a1 a2, PyTuple b1 b2 => py_eq a1 b1 && py_eq a2 b2
  | _, _ => false
  end.

(** ** Exceptions and results *)

Inductive exn : Type :=
| IncompleteInterpolationError (string_ end_sentinel : str)
| InterpolationError (msg : str)
| UndefinedVariableError (var : str)
| IndexError
| StopIteration
| BuiltinError (class_name : str).

(** What running a piece of the program gives: a value, a raised exception,
    or no answer within the bound given to a loop. *)
Inductive result (A : Type) : Type :=
| Ok (a : A)
| Raise (e : exn)
| Diverge.

Arguments Ok {A} a.
Arguments Raise {A} e.
Arguments Diverge {A}.

Definition bind {A B : Type} (m : result A) (k : A -> result B) : result B :=
  match m with
  | Ok a => k a
  | Raise e => Raise e
  | Diverge => Diverge
  end.

Notation "x <- m ;; k" := (bind m (fun x => k))
  (at level 61, m at next level, right associativity).
Notation "' p <- m ;; k" := (bind m (fun p => k))
  (at level 61, p pattern, m at next level, right associativity).

(** What a call of a builtin such as [str()] gives: the string, or an
    exception of a builtin class, named by its class ([str()] of a Python 2
    [unicode] object with a non-ASCII character raises
    [UnicodeEncodeError]).  [BuiltinError] is that exception as it comes
    out of the program. *)
Inductive builtin_result : Type :=
| Returns (s : str)
| Throws (class_name : str).

Definition builtin_call (r : builtin_result) : result str :=
  match r with
  | Returns s => Ok s
  | Throws class_name => Raise (BuiltinError class_name)
  end.

(** [l[i]] for [0 <= i]. *)
Definition getitem {A : Type} (l : list A) (i : nat) : result A :=
  match nth_error l i with
  | Some a => Ok a
  | None => Raise IndexError
  end.

(** ** Tokens and parts *)

(** Lexer tokens. *)
Inductive lt_tag : Type := LT_ESCAPE | LT_INTRPL_START | LT_INTRPL_END | LT_LITERAL.

(** The string each tag is in the source. *)
Definition lt_name (t : lt_tag) : str :=
  match t with
  | LT_ESCAPE => lit "ESCAPE"
  | LT_INTRPL_START => lit "INTRPL_START"
  | LT_INTRPL_END => lit "INTRPL_END"
  | LT_LITERAL => lit "LITERAL"
  end.

Definition lt_eqb (a b : lt_tag) : bool :=
  match a, b with
  | LT_ESCAPE, LT_ESCAPE | LT_INTRPL_START, LT_INTRPL_START
  | LT_INTRPL_END, LT_INTRPL_END | LT_LITERAL, LT_LITERAL => true
  | _, _ => false
  end.

(** Set of escapable lexer tokens. *)
Definition ESCAPABLE_LT_TOKENS : list lt_tag := [LT_ESCAPE; LT_INTRPL_START].

(** [tag in ESCAPABLE_LT_TOKENS] *)
Definition escapable (t : lt_tag) : bool := existsb (lt_eqb t) ESCAPABLE_LT_TOKENS.

(** A token is the tuple [(text, tag)]. *)
Definition token : Type := (str * lt_tag)%type.
Definition TT_TEXT (t : token) : str := fst t.
Definition TT_TAG (t : token) : lt_tag := snd t.

(** The token as the Python object it is. *)
Definition token_obj (t : token) : pyobj :=
  PyTuple (PyStr (TT_TEXT t)) (PyStr (lt_name (TT_TAG t))).

(** Truth value of a string. *)
Definition truthy (s : str) : bool := match s with [] => false | _ => true end.

(** Parser part types. *)
Inductive part_type : Type := PT_LITERAL | PT_REFERENCE.

(** A part is the dict [{'type': ..., 'data': ...}]. *)
Record part : Type := mkPart { ptype : part_type; data : str }.

Definition is_reference (p : part) : bool :=
  match ptype p with PT_REFERENCE => true | PT_LITERAL => false end.

(** ** reclass.defaults *)

(** The constants the module imports from [reclass.defaults]. *)
Record defaults : Type := mkDefaults {
  ESCAPE_CHARACTER : str;
  PARAMETER_INTERPOLATION_SENTINELS : str * str;
  PARAMETER_INTERPOLATION_DELIMITER : str
}.

(** Modelled from the spec: [reclass/defaults.py] is not among the sources;
    the spec gives a backslash as escape character, [${] and [}] as sentinel
    pair and [.] as path delimiter. *)
Definition spec_defaults : defaults :=
  {| ESCAPE_CHARACTER := lit "\";
     PARAMETER_INTERPOLATION_SENTINELS := (lit "${", lit "}");
     PARAMETER_INTERPOLATION_DELIMITER := lit "." |}.

(** All three markers are non-empty strings. *)
Definition markers_nonempty (d : defaults) : bool :=
  truthy (ESCAPE_CHARACTER d)
  && truthy (fst (PARAMETER_INTERPOLATION_SENTINELS d))
  && truthy (snd (PARAMETER_INTERPOLATION_SENTINELS d)).

(** Token expressions. *)
Definition TOKEN_EXPRS (d : defaults) : list (str * lt_tag) :=
  [ (ESCAPE_CHARACTER d, LT_ESCAPE);
    (fst (PARAMETER_INTERPOLATION_SENTINELS d), LT_INTRPL_START);
    (snd (PARAMETER_INTERPOLATION_SENTINELS d), LT_INTRPL_END) ].

(** ** The lexer: [RefValue._lex] *)

(** The local variables of [_lex] that live across iterations of its
    [while] loop. *)
Record lex_state : Type := mkLex {
  pos : nat;
  tokens : list token;
  token_literal_start : option nat
}.

(** The local variables the inner [for] loop assigns. *)
Record match_state : Type := mkMatch {
  match_start : Z;
  match_end : Z;
  m_tokens : list token;
  m_literal_start : option nat
}.

(** [for token_expr in self.TOKEN_EXPRS: ...], leaving at the first match. *)
Fixpoint lex_for (exprs : list (str * lt_tag)) (chars : str) (pos : nat)
    (m : match_state) : match_state :=
  match exprs with
  | [] => m
  | (pattern, tag) :: exprs' =>
      let match_start := find chars pattern pos (pos + length pattern) in
      if (0 <=? match_start)%Z && truthy (lt_name tag) then
        let '(tokens, literal_start) :=
          match m_literal_start m with
          | Some start =>
              (m_tokens m ++ [(slice chars start (Z.to_nat match_start), LT_LITERAL)], None)
          | None => (m_tokens m, None)
          end in
        let match_end := (match_start + Z.of_nat (length pattern))%Z in
        let text := slice chars (Z.to_nat match_start) (Z.to_nat match_end) in
        mkMatch match_start match_end (tokens ++ [(text, tag)]) literal_start
      else
        lex_for exprs' chars pos
          (mkMatch match_start (match_end m) (m_tokens m) (m_literal_start m))
  end.

(** One iteration of [while pos < len(chars)]. *)
Definition lex_body (d : defaults) (chars : str) (st : lex_state) : lex_state :=
  let m := lex_for (TOKEN_EXPRS d) chars (pos st)
             (mkMatch (-1) (-1) (tokens st) (token_literal_start st)) in
  if (match_start m =? -1)%Z && (match m_literal_start m with None => true | Some _ => false end)
  then mkLex (pos st) (m_tokens m) (Some (pos st))
  else if (0 <=? match_start m)%Z
  then mkLex (Z.to_nat (match_end m)) (m_tokens m) (m_literal_start m)
  else mkLex (pos st + 1) (m_tokens m) (m_literal_start m).

(** [while pos < len(chars): ...], at most [fuel] iterations. *)
Fixpoint lex_while (fuel : nat) (d : defaults) (chars : str) (st : lex_state)
    : result lex_state :=
  if pos st <? length chars then
    match fuel with
    | O => Diverge
    | S fuel' => lex_while fuel' d chars (lex_body d chars st)
    end
  else Ok st.

(** [_lex(self, chars)].  No iteration leaves both the position and the
    pending literal unchanged, so twice the length of [chars] bounds the
    iterations of a run that ends. *)
Definition _lex (d : defaults) (chars : str) : result (list token) :=
  st <- lex_while (2 * length chars + 1) d chars (mkLex 0 [] None) ;;
  match token_literal_start st with
  | Some start => Ok (tokens st ++ [(slice_from chars start, LT_LITERAL)])
  | None => Ok (tokens st)
  end.

(** ** The parser: [RefValue._parse] and [RefValue._parse_interpolation] *)

(** The attributes of a [RefValue] object. *)
Record RefValue : Type := mkRefValue {
  _refs : option (list str);
  _string : str;
  _delim : str;
  _has_escapes : bool;
  _tokens : list token;
  _parts : list part
}.

Definition set_refs (self : RefValue) (v : option (list str)) : RefValue :=
  mkRefValue v (_string self) (_delim self) (_has_escapes self) (_tokens self) (_parts self).
Definition set_has_escapes (self : RefValue) (v : bool) : RefValue :=
  mkRefValue (_refs self) (_string self) (_delim self) v (_tokens self) (_parts self).
Definition set_tokens (self : RefValue) (v : list token) : RefValue :=
  mkRefValue (_refs self) (_string self) (_delim self) (_has_escapes self) v (_parts self).
Definition set_parts (self : RefValue) (v : list part) : RefValue :=
  mkRefValue (_refs self) (_string self) (_delim self) (_has_escapes self) (_tokens self) v.

(** [token_iterator.next()] for [token_iterator = iter(enumerate(tokens))].
    The iterator's state is the number of items it has handed out; [None] is
    [StopIteration]. *)
Definition next (tokens : list token) (token_iterator : nat)
    : option ((nat * token) * nat) :=
  match nth_error tokens token_iterator with
  | Some t => Some ((token_iterator, t), S token_iterator)
  | None => None
  end.

(** [while True: ...] of [_parse_interpolation], inside its [try]; the
    result is the list [parts] and the iterator at the [break]. *)
Fixpoint interpolation_while (fuel : nat) (d : defaults) (tokens : list token)
    (token_iterator : nat) (parts : list str) : result (list str * nat) :=
  match fuel with
  | O => Diverge
  | S fuel' =>
      match next tokens token_iterator with
      | None =>
          Raise (IncompleteInterpolationError (str_join [] parts)
                   (snd (PARAMETER_INTERPOLATION_SENTINELS d)))
      | Some ((index, token), it1) =>
          if lt_eqb (TT_TAG token) LT_INTRPL_END then Ok (parts, it1)
          else if lt_eqb (TT_TAG token) LT_ESCAPE then
            t1 <- getitem tokens (index + 1) ;;
            if py_eq (token_obj t1) (PyStr (lt_name LT_INTRPL_END)) then
              t1' <- getitem tokens (index + 1) ;;
              let parts := parts ++ [TT_TEXT t1'] in
              match next tokens it1 with
              | None =>
                  Raise (IncompleteInterpolationError (str_join [] parts)
                           (snd (PARAMETER_INTERPOLATION_SENTINELS d)))
              | Some (_, it2) => interpolation_while fuel' d tokens it2 parts
              end
            else interpolation_while fuel' d tokens it1 (parts ++ [TT_TEXT token])
          else interpolation_while fuel' d tokens it1 (parts ++ [TT_TEXT token])
      end
  end.

Definition empty_name_msg : str :=
  lit "String interpolation with empty/zero-length variable" ++ lit "name found.".

(** [_parse_interpolation(self, token_iterator, tokens)]; every iteration of
    its loop takes a token from the iterator, so the loop runs at most once
    more than there are tokens. *)
Definition _parse_interpolation (d : defaults) (token_iterator : nat)
    (tokens : list token) : result (str * nat) :=
  '(parts, it) <- interpolation_while (S (length tokens)) d tokens token_iterator [] ;;
  if length parts =? 0 then Raise (InterpolationError empty_name_msg)
  else Ok (str_join [] parts, it).

(** The variables of [_parse] that change from one iteration to the next. *)
Record parse_state : Type := mkParse {
  token_iterator : nat;
  parts : list part;
  p_self : RefValue
}.

Definition append_part (st : parse_state) (p : part) : parse_state :=
  mkParse (token_iterator st) (parts st ++ [p]) (p_self st).

(** [token_iterator.next()] as a statement of [_parse]. *)
Definition iterator_next (tokens : list token) (st : parse_state) : result parse_state :=
  match next tokens (token_iterator st) with
  | Some (_, it) => Ok (mkParse it (parts st) (p_self st))
  | None => Raise StopIteration
  end.

(** The body of [for index, token in token_iterator: ...]. *)
Definition parse_body (d : defaults) (tokens : list token) (tokens_last_index : Z)
    (index : nat) (token : token) (st : parse_state) : result parse_state :=
  if lt_eqb (TT_TAG token) LT_LITERAL then
    Ok (append_part st (mkPart PT_LITERAL (TT_TEXT token)))
  else if lt_eqb (TT_TAG token) LT_ESCAPE then
    if (Z.of_nat index =? tokens_last_index)%Z then
      Ok (append_part st (mkPart PT_LITERAL (TT_TEXT token)))
    else
      c2 <- (if (Z.of_nat index + 1 <=? tokens_last_index)%Z then
               t1 <- getitem tokens (index + 1) ;;
               Ok (negb (escapable (TT_TAG t1)))
             else Ok false) ;;
      if c2 then Ok (append_part st (mkPart PT_LITERAL (TT_TEXT token)))
      else
        c3 <- (if (Z.of_nat index + 2 <=? tokens_last_index)%Z then
                 t1 <- getitem tokens (index + 1) ;;
                 if lt_eqb (TT_TAG t1) LT_ESCAPE then
                   t2 <- getitem tokens (index + 2) ;;
                   Ok (negb (escapable (TT_TAG t2)))
                 else Ok false
               else Ok false) ;;
        if c3 then
          let st := append_part st (mkPart PT_LITERAL (TT_TEXT token)) in
          t1 <- getitem tokens (index + 1) ;;
          let st := append_part st (mkPart PT_LITERAL (TT_TEXT t1)) in
          iterator_next tokens st
        else
          t1 <- getitem tokens (index + 1) ;;
          let st := append_part st (mkPart PT_LITERAL (TT_TEXT t1)) in
          st <- iterator_next tokens st ;;
          Ok (mkParse (token_iterator st) (parts st) (set_has_escapes (p_self st) true))
  else if lt_eqb (TT_TAG token) LT_INTRPL_END then
    Ok (append_part st (mkPart PT_LITERAL (TT_TEXT token)))
  else if lt_eqb (TT_TAG token) LT_INTRPL_START then
    '(reference_parts, it) <- _parse_interpolation d (token_iterator st) tokens ;;
    Ok (append_part (mkParse it (parts st) (p_self st)) (mkPart PT_REFERENCE reference_parts))
  else Ok st.

(** [for index, token in token_iterator: ...], at most [fuel] iterations. *)
Fixpoint parse_for (fuel : nat) (d : defaults) (tokens : list token)
    (tokens_last_index : Z) (st : parse_state) : result parse_state :=
  match next tokens (token_iterator st) with
  | None => Ok st
  | Some ((index, token), it) =>
      match fuel with
      | O => Diverge
      | S fuel' =>
          st' <- parse_body d tokens tokens_last_index index token
                   (mkParse it (parts st) (p_self st)) ;;
          parse_for fuel' d tokens tokens_last_index st'
      end
  end.

(** [_parse(self, tokens)]: the parts, and [self] with the flag the loop may
    have set.  Every iteration takes a token, so there are no more
    iterations than tokens. *)
Definition _parse (d : defaults) (self : RefValue) (tokens : list token)
    : result (list part * RefValue) :=
  let tokens_last_index := (Z.of_nat (length tokens) - 1)%Z in
  st <- parse_for (length tokens) d tokens tokens_last_index (mkParse 0 [] self) ;;
  Ok (parts st, p_self st).

(** ** Accessors and construction *)

(** [get_references(self)]: the list, and [self] with the list stored. *)
Definition get_references (self : RefValue) : list str * RefValue :=
  match _refs self with
  | None =>
      let refs := map data (filter is_reference (_parts self)) in
      (refs, set_refs self (Some refs))
  | Some refs => (refs, self)
  end.

Definition has_escapes (self : RefValue) : bool := _has_escapes self.

Definition has_references (self : RefValue) : bool * RefValue :=
  let '(refs, self) := get_references self in (0 <? length refs, self).

(** [RefValue.__init__(self, string, delim)]; the attributes assigned later
    in the body start out empty. *)
Definition __init__ (d : defaults) (string_ : str) (delim : str) : result RefValue :=
  let self := mkRefValue None string_ delim false [] [] in
  tokens <- _lex d string_ ;;
  let self := set_tokens self tokens in
  '(parts, self) <- _parse d self (_tokens self) ;;
  let self := set_parts self parts in
  let '(_, self) := get_references self in
  Ok self.

(** [RefValue(string)], with the default delimiter. *)
Definition new_RefValue (d : defaults) (string_ : str) : result RefValue :=
  __init__ d string_ (PARAMETER_INTERPOLATION_DELIMITER d).

(** ** Rendering *)

Section Render.

(** The objects a context holds and [render] returns; [VStr] is the
    [str] objects among them and [py_str] the builtin [str()], which
    returns a string or raises. *)
Variable value : Type.
Variable VStr : str -> value.
Variable py_str : value -> builtin_result.

(** The mappings given to [render]. *)
Variable context : Type.

(** Modelled from the spec: [reclass/utils/dictpath.py] is not among the
    sources.  [DictPath(delim, ref).get_value(context)] splits [ref] on
    [delim] and walks [context]; it gives the value found, or [None] for
    the [KeyError] of an absent segment. *)
Variable dictpath_get_value : str -> str -> context -> option value.

(** [_resolve(self, ref, context)] *)
Definition _resolve (self : RefValue) (ref : str) (ctx : context) : result value :=
  match dictpath_get_value (_delim self) ref ctx with
  | Some v => Ok v
  | None => Raise (UndefinedVariableError ref)
  end.

(** [for part in self._parts: ...] of [_assemble]. *)
Fixpoint assemble_for (parts : list part) (resolver : str -> result value)
    (ret : str) : result str :=
  match parts with
  | [] => Ok ret
  | part :: parts' =>
      match ptype part with
      | PT_LITERAL => assemble_for parts' resolver (ret ++ data part)
      | PT_REFERENCE =>
          v <- resolver (data part) ;;
          text <- builtin_call (py_str v) ;;
          assemble_for parts' resolver (ret ++ text)
      end
  end.

(** [_assemble(self, resolver)]: what it returns or raises, and [self]. *)
Definition _assemble (self : RefValue) (resolver : str -> result value)
    : result value * RefValue :=
  let '(has_refs, self) := has_references self in
  if negb has_refs && negb (has_escapes self) then (Ok (VStr (_string self)), self)
  else
    let '(only_ref, self) :=
      if length (_parts self) =? 1 then has_references self else (false, self) in
    if only_ref then
      (p <- getitem (_parts self) 0 ;; resolver (data p), self)
    else
      (ret <- assemble_for (_parts self) resolver [] ;; Ok (VStr ret), self).

(** [render(self, context)] *)
Definition render (self : RefValue) (ctx : context) : result value * RefValue :=
  let resolver := fun s => _resolve self s ctx in
  _assemble self resolver.

(** The assembly inside [__repr__]: [self._assemble(do_not_resolve)]. *)
Definition repr_assemble (d : defaults) (self : RefValue) : result value * RefValue :=
  let do_not_resolve := fun s =>
    Ok (VStr (str_join s [fst (PARAMETER_INTERPOLATION_SENTINELS d);
                          snd (PARAMETER_INTERPOLATION_SENTINELS d)])) in
  _assemble self do_not_resolve.

End Render.

(** ** Notions the statements use *)

(** [pattern] occurs in [chars] at position [pos]. *)
Definition matches_at (chars pattern : str) (pos : nat) : bool :=
  str_eqb (firstn (length pattern) (skipn pos chars)) pattern.

(** [pattern in chars] *)
Definition contains (pattern chars : str) : bool :=
  existsb (matches_at chars pattern) (seq 0 (S (length chars))).

(** The first token expression that matches at [pos], in the order of
    [TOKEN_EXPRS]. *)
Definition first_match (d : defaults) (chars : str) (pos : nat) : option (str * lt_tag) :=
  List.find (fun e => matches_at chars (fst e) pos) (TOKEN_EXPRS d).

(** The literal token a match flushes. *)
Definition flush (chars : str) (literal_start : option nat) (pos : nat) : list token :=
  match literal_start with
  | Some start => [(slice chars start pos, LT_LITERAL)]
  | None => []
  end.

(** The text a marker token has; a literal token has none prescribed. *)
Definition marker_text (d : defaults) (tag : lt_tag) : option str :=
  match tag with
  | LT_ESCAPE => Some (ESCAPE_CHARACTER d)
  | LT_INTRPL_START => Some (fst (PARAMETER_INTERPOLATION_SENTINELS d))
  | LT_INTRPL_END => Some (snd (PARAMETER_INTERPOLATION_SENTINELS d))
  | LT_LITERAL => None
  end.

(** A marker token carries its marker, a literal token at least a character. *)
Definition token_ok (d : defaults) (t : token) : Prop :=
  match marker_text d (TT_TAG t) with
  | Some pattern => TT_TEXT t = pattern
  | None => TT_TEXT t <> []
  end.

(** What the lexer's loop keeps true: the tokens and the pending literal
    cover [chars] up to [pos]. *)
Definition lex_inv (d : defaults) (chars : str) (st : lex_state) : Prop :=
  pos st <= length chars
  /\ concat (map TT_TEXT (tokens st)) =
     firstn (match token_literal_start st with Some start => start | None => pos st end) chars
  /\ (forall start, token_literal_start st = Some start ->
        start <= pos st /\ start < length chars
        /\ (start = pos st -> first_match d chars (pos st) = None))
  /\ Forall (token_ok d) (tokens st).

(** Iterations the lexer's loop still has to make, at most. *)
Definition lex_measure (chars : str) (st : lex_state) : nat :=
  2 * (length chars - pos st)
  + match token_literal_start st with None => 1 | Some _ => 0 end.

(** What the parser does at an escape token outside an interpolation. *)
Record escape_outcome : Type := mkOutcome {
  emitted : list part;
  consumes_next : bool;
  sets_has_escapes : bool
}.

(** The escape rule in the words of the specification, on the escape token
    and the tokens that follow it: final token; next token not escapable;
    next token an escape and the one after it not escapable; otherwise. *)
Definition spec_escape_rule (escape : token) (following : list token) : escape_outcome :=
  let literal := fun t : token => mkPart PT_LITERAL (TT_TEXT t) in
  let is_escapable := fun t : token =>
    match TT_TAG t with LT_ESCAPE | LT_INTRPL_START => true | _ => false end in
  match following with
  | [] => mkOutcome [literal escape] false false
  | next_token :: after =>
      if negb (is_escapable next_token) then mkOutcome [literal escape] false false
      else
        match TT_TAG next_token, after with
        | LT_ESCAPE, second :: _ =>
            if negb (is_escapable second)
            then mkOutcome [literal escape; literal next_token] true false
            else mkOutcome [literal next_token] true true
        | _, _ => mkOutcome [literal next_token] true true
        end
  end.

(** The states the loop of [_parse] goes through on [tokens], from a start
    with [self]. *)
Inductive parse_reaches (d : defaults) (tokens : list token) (self : RefValue)
    : parse_state -> Prop :=
| reaches_start : parse_reaches d tokens self (mkParse 0 [] self)
| reaches_step (st st' : parse_state) (index : nat) (token : token) (it : nat) :
    parse_reaches d tokens self st ->
    next tokens (token_iterator st) = Some ((index, token), it) ->
    parse_body d tokens (Z.of_nat (length tokens) - 1) index token
      (mkParse it (parts st) (p_self st)) = Ok st' ->
    parse_reaches d tokens self st'.

(** A part written back as source text: a literal as it is, a reference
    between the sentinels. *)
Definition redisplay_part (d : defaults) (p : part) : str :=
  match ptype p with
  | PT_LITERAL => data p
  | PT_REFERENCE =>
      fst (PARAMETER_INTERPOLATION_SENTINELS d) ++ data p
      ++ snd (PARAMETER_INTERPOLATION_SENTINELS d)
  end.

Definition redisplay (d : defaults) (parts : list part) : str :=
  concat (map (redisplay_part d) parts).

(** [kept] is [toks] without some of its escape tokens. *)
Inductive escape_erasure : list token -> list token -> Prop :=
| erasure_nil : escape_erasure [] []
| erasure_keep (t : token) (toks kept : list token) :
    escape_erasure toks kept -> escape_erasure (t :: toks) (t :: kept)
| erasure_drop (t : token) (toks kept : list token) :
    TT_TAG t = LT_ESCAPE -> escape_erasure toks kept -> escape_erasure (t :: toks) kept.

(** The tokens one iteration of [_parse] takes, the parts it adds for them
    and whether it sets [_has_escapes]: tokens copied as literals, an escape
    dropped in front of the token it escapes, or a reference from its start
    marker to its end marker. *)
Inductive step_shape : list token -> list part -> bool -> Prop :=
| shape_verbatim (toks : list token) :
    step_shape toks (map (fun t => mkPart PT_LITERAL (TT_TEXT t)) toks) false
| shape_escaped (escape t : token) :
    TT_TAG escape = LT_ESCAPE ->
    step_shape [escape; t] [mkPart PT_LITERAL (TT_TEXT t)] true
| shape_reference (start : token) (body : list token) (stop : token) :
    TT_TAG start = LT_INTRPL_START -> TT_TAG stop = LT_INTRPL_END -> body <> [] ->
    step_shape (start :: body ++ [stop])
      [mkPart PT_REFERENCE (concat (map TT_TEXT body))] false.

(** The same for a whole run of iterations. *)
Inductive parse_shape : list token -> list part -> bool -> Prop :=
| parse_shape_nil : parse_shape [] [] false
| parse_shape_snoc (toks1 : list token) (parts1 : list part) (h1 : bool)
    (toks2 : list token) (parts2 : list part) (h2 : bool) :
    parse_shape toks1 parts1 h1 -> step_shape toks2 parts2 h2 ->
    parse_shape (toks1 ++ toks2) (parts1 ++ parts2) (h1 || h2).

(** The exceptions the sub-scan can raise. *)
Definition parse_error (d : defaults) (e : exn) : Prop :=
  e = IndexError
  \/ (exists name,
        e = IncompleteInterpolationError name (snd (PARAMETER_INTERPOLATION_SENTINELS d)))
  \/ e = InterpolationError empty_name_msg.

(** The object [__init__] hands to [_parse]. *)
Definition init_self (s delim : str) (toks : list token) : RefValue :=
  mkRefValue None s delim false toks [].

(** ** A context for examples *)

(** Strings and integers as context values, [str()] on them, and flat
    contexts in which a reference is looked up whole. *)
Inductive example_value : Type :=
| EStr (s : str)
| EInt (n : Z).

Definition example_str (v : example_value) : builtin_result :=
  match v with
  | EStr s => Returns s
  | EInt n => Returns (lit (NilZero.string_of_int (Z.to_int n)))
  end.

Definition example_context : Type := list (str * example_value).

Fixpoint example_get_value (delim ref : str) (ctx : example_context) : option example_value :=
  match ctx with
  | [] => None
  | (key, v) :: ctx' => if str_eqb key ref then Some v else example_get_value delim ref ctx'
  end.

Definition example_ctx : example_context :=
  [(lit "favcolour", EStr (lit "yellow")); (lit "answer", EInt 42)].

(** ** Further notions *)

Definition is_literal (t : token) : bool := lt_eqb (TT_TAG t) LT_LITERAL.

(** No literal token is directly followed by another one. *)
Fixpoint no_adjacent_literals (toks : list token) : bool :=
  match toks with
  | [] => true
  | a :: rest =>
      match rest with
      | [] => true
      | b :: _ => negb (is_literal a && is_literal b) && no_adjacent_literals rest
      end
  end.

(** The last token is a literal one. *)
Definition ends_with_literal (toks : list token) : bool :=
  match rev toks with
  | [] => false
  | t :: _ => is_literal t
  end.

(** The three markers, in the order of [TOKEN_EXPRS]. *)
Definition markers (d : defaults) : list str := map fst (TOKEN_EXPRS d).

(** A state of the lexer on [rest], seen as a state on [pre ++ rest] that
    has the tokens [done] for [pre] behind it. *)
Definition lex_shift (pre : str) (done : list token) (st : lex_state) : lex_state :=
  mkLex (length pre + pos st) (done ++ tokens st)
    (match token_literal_start st with
     | Some start => Some (length pre + start)
     | None => None
     end).

(** The text a part contributes when every reference resolves through
    [lookup] and [str()] returns on its value: a literal its text, a
    reference [str()] of its value. *)
Definition substituted (value : Type) (py_str : value -> builtin_result)
    (lookup : str -> option value) (ps : list part) : str :=
  concat (map (fun p => match ptype p with
                        | PT_LITERAL => data p
                        | PT_REFERENCE =>
                            match lookup (data p) with
                            | Some v =>
                                match py_str v with
                                | Returns text => text
                                | Throws _ => []
                                end
                            | None => []
                            end
                        end) ps).

(** ** [RefValue.__repr__] *)

Section Repr.

Variable value : Type.
Variable VStr : str -> value.
Variable py_str : value -> builtin_result.

(** The builtin [repr()], which [%r] applies to its argument. *)
Variable py_repr : value -> str.

(** [__repr__(self)]: ['RefValue(%r, %r)' % (self._assemble(do_not_resolve),
    self._delim)], for a delimiter that is a [str]. *)
Definition __repr__ (d : defaults) (self : RefValue) : result str * RefValue :=
  let '(assembled, self) := repr_assemble value VStr py_str d self in
  (v <- assembled ;;
   Ok (lit "RefValue(" ++ py_repr v ++ lit ", " ++ py_repr (VStr (_delim self)) ++ lit ")"),
   self).

End Repr.

Definition hex_digit (n : nat) : ascii :=
  nth n (lit "0123456789abcdef") "0"%char.

(** [repr()] of a Python 2 [str]: between single quotes, or double quotes
    when the string holds a single quote and no double quote; the quote,
    the backslash, tab, newline and carriage return escaped with a
    backslash, other characters outside the printable ASCII range as a
    two-digit hexadecimal escape. *)
Definition repr_char (quote c : ascii) : str :=
  let n := nat_of_ascii c in
  if Ascii.eqb c quote || Ascii.eqb c "\"%char then ["\"%char; c]
  else if n =? 9 then lit "\t"
  else if n =? 10 then lit "\n"
  else if n =? 13 then lit "\r"
  else if (n <? 32) || (127 <=? n)
  then ["\"%char; "x"%char; hex_digit (n / 16); hex_digit (n mod 16)]
  else [c].

Definition repr_str (s : str) : str :=
  let single := "'"%char in
  let double := ascii_of_nat 34 in
  let quote :=
    if existsb (Ascii.eqb single) s && negb (existsb (Ascii.eqb double) s)
    then double else single in
  [quote] ++ concat (map (repr_char quote) s) ++ [quote].

(** [repr()] on the example values. *)
Definition example_repr (v : example_value) : str :=
  match v with
  | EStr s => repr_str s
  | EInt n => lit (NilZero.string_of_int (Z.to_int n))
  end.

(** ** A context with [unicode] values *)

(** Byte strings and Python 2 [unicode] objects (their code points) as
    context values.  [str()] of a [unicode] object encodes it as ASCII: it
    raises [UnicodeEncodeError] when a code point is 128 or more. *)
Inductive text_value : Type :=
| TStr (s : str)
| TUnicode (points : list nat).

Definition text_str (v : text_value) : builtin_result :=
  match v with
  | TStr s => Returns s
  | TUnicode points =>
      if forallb (fun point => point <? 128) points
      then Returns (map ascii_of_nat points)
      else Throws (lit "UnicodeEncodeError")
  end.

Fixpoint text_get_value (delim ref : str) (ctx : list (str * text_value))
    : option text_value :=
  match ctx with
  | [] => None
  | (key, v) :: ctx' => if str_eqb key ref then Some v else text_get_value delim ref ctx'
  end.

(** [{'a': u'\xe9'}] *)
Definition text_ctx : list (str * text_value) := [(lit "a", TUnicode [233])].

(** * Properties *)

(** Decide the next comparison of indices in the goal by arithmetic. *)
Ltac ztest :=
  match goal with
  | |- context [(?a =? ?b)%Z] =>
      destruct (Z.eqb_spec a b); try (exfalso; cbn [length] in *; lia)
  | |- context [(?a <=? ?b)%Z] =>
      destruct (Z.leb_spec a b); try (exfalso; cbn [length] in *; lia)
  end.

(** ** Strings *)

Lemma str_eqb_eq (a b : str) : str_eqb a b = true <-> a = b.
Proof.
  unfold str_eqb. destruct (list_eq_dec ascii_dec a b); split; congruence.
Qed.

Lemma str_eqb_refl (a : str) : str_eqb a a = true.
Proof. now apply str_eqb_eq. Qed.

Lemma str_join_nil (items : list str) : str_join [] items = concat items.
Proof.
  induction items as [|x rest IH]; [reflexivity|].
  destruct rest as [|y rest'].
  - simpl. now rewrite app_nil_r.
  - change (str_join [] (x :: y :: rest')) with (x ++ [] ++ str_join [] (y :: rest')).
    rewrite IH. reflexivity.
Qed.

Lemma matches_at_eq (chars pattern : str) (pos : nat) :
  matches_at chars pattern pos = true ->
  firstn (length pattern) (skipn pos chars) = pattern.
Proof. unfold matches_at. now rewrite str_eqb_eq. Qed.

Lemma matches_at_bound (chars pattern : str) (pos : nat) :
  matches_at chars pattern pos = true -> pos < length chars ->
  pos + length pattern <= length chars.
Proof.
  intros H Hlt. apply matches_at_eq in H.
  apply (f_equal (@length ascii)) in H.
  rewrite length_firstn, length_skipn in H. lia.
Qed.

(** Searching [chars[pos : pos+len(pattern)]] is a test at [pos] alone. *)
Lemma find_anchor (chars pattern : str) (pos : nat) :
  pos <= length chars ->
  find chars pattern pos (pos + length pattern) =
  if matches_at chars pattern pos then Z.of_nat pos else (-1)%Z.
Proof.
  intros Hpos. unfold find, matches_at.
  destruct (Nat.ltb_spec (Nat.min (pos + length pattern) (length chars)) (pos + length pattern)) as [Hs|Hs].
  - destruct (str_eqb (firstn (length pattern) (skipn pos chars)) pattern) eqn:E; [|reflexivity].
    apply str_eqb_eq in E. apply (f_equal (@length ascii)) in E.
    rewrite length_firstn, length_skipn in E. lia.
  - replace (Nat.min (pos + length pattern) (length chars) - (pos + length pattern) + 1) with 1 by lia.
    simpl. unfold slice.
    replace (pos + length pattern - pos) with (length pattern) by lia.
    reflexivity.
Qed.

Lemma truthy_lt_name (tag : lt_tag) : truthy (lt_name tag) = true.
Proof. now destruct tag. Qed.

(** ** The lexer *)

Lemma lex_for_spec (exprs : list (str * lt_tag)) (chars : str) (pos : nat) (m : match_state) :
  pos <= length chars ->
  lex_for exprs chars pos m =
  match List.find (fun e => matches_at chars (fst e) pos) exprs with
  | Some (pattern, tag) =>
      mkMatch (Z.of_nat pos) (Z.of_nat (pos + length pattern))
        (m_tokens m ++ flush chars (m_literal_start m) pos ++ [(pattern, tag)]) None
  | None =>
      match exprs with
      | [] => m
      | _ => mkMatch (-1) (match_end m) (m_tokens m) (m_literal_start m)
      end
  end.
Proof.
  intros Hpos. revert m.
  induction exprs as [|[pattern tag] exprs IH]; intros m; [reflexivity|].
  cbn [lex_for List.find fst]. rewrite find_anchor, truthy_lt_name, andb_true_r by exact Hpos.
  destruct (matches_at chars pattern pos) eqn:E.
  - replace (0 <=? Z.of_nat pos)%Z with true by (symmetry; apply Z.leb_le; lia).
    rewrite Nat2Z.id.
    replace (Z.to_nat (Z.of_nat pos + Z.of_nat (length pattern))) with (pos + length pattern) by lia.
    unfold slice at 2. replace (pos + length pattern - pos) with (length pattern) by lia.
    rewrite (matches_at_eq _ _ _ E).
    replace (Z.of_nat pos + Z.of_nat (length pattern))%Z with (Z.of_nat (pos + length pattern)) by lia.
    unfold flush. destruct (m_literal_start m); cbn.
    + now rewrite <- app_assoc.
    + reflexivity.
  - cbn [Z.leb Z.compare andb]. rewrite IH. cbn.
    destruct (List.find _ exprs) as [[p t]|]; [reflexivity|].
    destruct exprs; [destruct m|]; reflexivity.
Qed.

(** One iteration of the lexer's loop, by cases on what matches at [pos]. *)
Lemma lex_body_spec (d : defaults) (chars : str) (st : lex_state) :
  pos st <= length chars ->
  lex_body d chars st =
  match first_match d chars (pos st) with
  | Some (pattern, tag) =>
      mkLex (pos st + length pattern)
        (tokens st ++ flush chars (token_literal_start st) (pos st) ++ [(pattern, tag)]) None
  | None =>
      match token_literal_start st with
      | None => mkLex (pos st) (tokens st) (Some (pos st))
      | Some start => mkLex (pos st + 1) (tokens st) (Some start)
      end
  end.
Proof.
  intros Hpos. unfold lex_body, first_match. rewrite lex_for_spec by exact Hpos.
  destruct (List.find _ (TOKEN_EXPRS d)) as [[pattern tag]|].
  - cbn [match_start match_end m_tokens m_literal_start].
    replace (Z.of_nat (pos st) =? -1)%Z with false by (symmetry; apply Z.eqb_neq; lia).
    replace (0 <=? Z.of_nat (pos st))%Z with true by (symmetry; apply Z.leb_le; lia).
    cbn [andb]. now rewrite Nat2Z.id.
  - cbn [TOKEN_EXPRS match_start match_end m_tokens m_literal_start].
    destruct (token_literal_start st); reflexivity.
Qed.

Lemma first_match_some (d : defaults) (chars : str) (pos : nat) (pattern : str) (tag : lt_tag) :
  first_match d chars pos = Some (pattern, tag) ->
  matches_at chars pattern pos = true /\ marker_text d tag = Some pattern.
Proof.
  unfold first_match. intros H. apply find_some in H. destruct H as [Hin Hm].
  split; [exact Hm|].
  cbn in Hin. destruct Hin as [E|[E|[E|[]]]]; inversion E; reflexivity.
Qed.

Lemma first_match_nonempty (d : defaults) (chars : str) (pos : nat) (pattern : str) (tag : lt_tag) :
  markers_nonempty d = true ->
  first_match d chars pos = Some (pattern, tag) -> 0 < length pattern.
Proof.
  intros Hd H. apply first_match_some in H. destruct H as [_ H].
  unfold markers_nonempty in Hd. apply andb_prop in Hd. destruct Hd as [Hd H3].
  apply andb_prop in Hd. destruct Hd as [H1 H2].
  destruct tag; cbn in H; inversion H; subst pattern;
    match goal with |- 0 < length ?p => destruct p; [discriminate | cbn; lia] end.
Qed.

Lemma firstn_plus (A : Type) (a b : nat) (l : list A) :
  firstn a l ++ firstn b (skipn a l) = firstn (a + b) l.
Proof.
  revert l. induction a as [|a IH]; intros l; [reflexivity|].
  destruct l as [|x l]; cbn.
  - now rewrite firstn_nil.
  - now rewrite IH.
Qed.

Lemma firstn_slice (chars : str) (a b : nat) :
  a <= b -> firstn a chars ++ slice chars a b = firstn b chars.
Proof.
  intros H. unfold slice. rewrite firstn_plus. f_equal. lia.
Qed.

Lemma slice_nonempty (chars : str) (a b : nat) :
  a < b -> a < length chars -> slice chars a b <> [].
Proof.
  intros H1 H2 E. apply (f_equal (@length ascii)) in E.
  unfold slice in E. rewrite length_firstn, length_skipn in E. cbn in E. lia.
Qed.

Lemma lex_while_unfold (fuel : nat) (d : defaults) (chars : str) (st : lex_state) :
  lex_while fuel d chars st =
  if pos st <? length chars then
    match fuel with
    | O => Diverge
    | S fuel' => lex_while fuel' d chars (lex_body d chars st)
    end
  else Ok st.
Proof. destruct fuel; reflexivity. Qed.

(** The loop rule for the lexer: what every iteration keeps, the loop
    establishes, together with the negated loop condition. *)
Lemma lex_while_inv (I : lex_state -> Prop) (d : defaults) (chars : str) :
  (forall st, I st -> pos st < length chars -> I (lex_body d chars st)) ->
  forall fuel st st', I st -> lex_while fuel d chars st = Ok st' ->
  I st' /\ length chars <= pos st'.
Proof.
  intros Hstep. induction fuel as [|fuel IH]; intros st st' HI H;
    rewrite lex_while_unfold in H;
    destruct (Nat.ltb_spec (pos st) (length chars)) as [Hlt|Hge]; try discriminate.
  - injection H as <-. now split.
  - apply IH in H; [exact H|]. now apply Hstep.
  - injection H as <-. now split.
Qed.

Lemma lex_inv_init (d : defaults) (chars : str) : lex_inv d chars (mkLex 0 [] None).
Proof.
  unfold lex_inv; cbn. repeat split; try lia; try discriminate. constructor.
Qed.

Lemma lex_inv_step (d : defaults) (chars : str) (st : lex_state) :
  lex_inv d chars st -> pos st < length chars -> lex_inv d chars (lex_body d chars st).
Proof.
  intros (Hpos & Hcat & Hlit & Hok) Hlt.
  rewrite lex_body_spec by exact Hpos.
  destruct (first_match d chars (pos st)) as [[pattern tag]|] eqn:Hm.
  - destruct (first_match_some _ _ _ _ _ Hm) as [Hat Htag].
    pose proof (matches_at_bound _ _ _ Hat Hlt) as Hb.
    unfold lex_inv; cbn [pos tokens token_literal_start].
    split; [exact Hb|]. split; [|split; [discriminate|]].
    + rewrite !map_app, !concat_app, Hcat. cbn [map concat]. rewrite app_nil_r.
      rewrite <- (matches_at_eq _ _ _ Hat) at 1.
      destruct (token_literal_start st) as [start|] eqn:El; cbn [flush map concat TT_TEXT fst].
      * destruct (Hlit start eq_refl) as (Hle & _ & _).
        rewrite app_nil_r, app_assoc, firstn_slice by exact Hle. apply firstn_plus.
      * cbn. apply firstn_plus.
    + apply Forall_app. split; [exact Hok|]. apply Forall_app. split.
      * destruct (token_literal_start st) as [start|] eqn:El; cbn [flush]; constructor; [|constructor].
        unfold token_ok; cbn.
        destruct (Hlit start eq_refl) as (Hle & Hs & Hnone).
        apply slice_nonempty; [|exact Hs].
        destruct (Nat.eq_dec start (pos st)) as [E|E]; [|lia].
        discriminate (Hnone E).
      * constructor; [|constructor]. unfold token_ok. cbn [TT_TAG TT_TEXT fst snd].
        now rewrite Htag.
  - destruct (token_literal_start st) as [start|] eqn:El;
      unfold lex_inv; cbn [pos tokens token_literal_start].
    + destruct (Hlit start eq_refl) as (Hle & Hs & _).
      split; [lia|]. split; [exact Hcat|]. split; [|exact Hok].
      intros start' E. inversion E; subst start'. repeat split; lia.
    + split; [lia|]. split; [exact Hcat|]. split; [|exact Hok].
      intros start' E. inversion E; subst start'. repeat split; try lia. intros _. exact Hm.
Qed.

Lemma lex_measure_step (d : defaults) (chars : str) (st : lex_state) :
  markers_nonempty d = true -> pos st < length chars ->
  lex_measure chars (lex_body d chars st) < lex_measure chars st.
Proof.
  intros Hd Hlt. rewrite lex_body_spec by lia.
  destruct (first_match d chars (pos st)) as [[pattern tag]|] eqn:Hm.
  - pose proof (first_match_nonempty _ _ _ _ _ Hd Hm) as Hn.
    unfold lex_measure; cbn [pos token_literal_start].
    destruct (token_literal_start st); lia.
  - unfold lex_measure.
    destruct (token_literal_start st); cbn [pos token_literal_start]; lia.
Qed.

(** With non-empty markers the lexer's loop ends within its bound. *)
Lemma lex_while_terminates (d : defaults) (chars : str) :
  markers_nonempty d = true ->
  forall fuel st, lex_measure chars st <= fuel ->
  exists st', lex_while fuel d chars st = Ok st'.
Proof.
  intros Hd. induction fuel as [|fuel IH]; intros st Hm;
    rewrite lex_while_unfold;
    destruct (Nat.ltb_spec (pos st) (length chars)) as [Hlt|Hge]; eauto.
  - unfold lex_measure in Hm. lia.
  - apply IH. pose proof (lex_measure_step d chars st Hd Hlt). lia.
Qed.

Lemma lex_terminates (d : defaults) (chars : str) :
  markers_nonempty d = true -> exists toks, _lex d chars = Ok toks.
Proof.
  intros Hd. unfold _lex.
  destruct (lex_while_terminates d chars Hd (2 * length chars + 1) (mkLex 0 [] None)) as [st Hst].
  - unfold lex_measure; cbn. lia.
  - rewrite Hst. cbn. destruct (token_literal_start st); eauto.
Qed.

(** The tokens of a finished run spell [chars], each of them well formed. *)
Lemma lex_lossless (d : defaults) (chars : str) (toks : list token) :
  _lex d chars = Ok toks ->
  concat (map TT_TEXT toks) = chars /\ Forall (token_ok d) toks.
Proof.
  unfold _lex. intros H.
  destruct (lex_while (2 * length chars + 1) d chars (mkLex 0 [] None)) as [st| |] eqn:Hw;
    try discriminate.
  destruct (lex_while_inv (lex_inv d chars) d chars (lex_inv_step d chars) _ _ _ (lex_inv_init d chars) Hw)
    as [(Hpos & Hcat & Hlit & Hok) Hge].
  cbn in H. destruct (token_literal_start st) as [start|] eqn:El; inversion H; subst toks.
  - destruct (Hlit start eq_refl) as (Hle & Hs & _). split.
    + rewrite map_app, concat_app, Hcat. cbn. rewrite app_nil_r. apply firstn_skipn.
    + apply Forall_app. split; [exact Hok|]. constructor; [|constructor].
      unfold token_ok, slice_from; cbn. intros E.
      apply (f_equal (@length ascii)) in E. rewrite length_skipn in E. cbn in E. lia.
  - split; [|exact Hok]. rewrite Hcat. apply firstn_all2. lia.
Qed.

Lemma contains_intro (pattern chars : str) (pos : nat) :
  pos <= length chars -> matches_at chars pattern pos = true -> contains pattern chars = true.
Proof.
  intros Hle Hm. unfold contains. apply existsb_exists. exists pos. split; [|exact Hm].
  apply in_seq. lia.
Qed.

Lemma contains_false (pattern chars : str) (pos : nat) :
  contains pattern chars = false -> pos <= length chars -> matches_at chars pattern pos = false.
Proof.
  intros Hc Hle. destruct (matches_at chars pattern pos) eqn:E; [|reflexivity].
  rewrite (contains_intro _ _ _ Hle E) in Hc. discriminate.
Qed.

Lemma contains_false_nonempty (pattern chars : str) :
  contains pattern chars = false -> truthy pattern = true.
Proof.
  intros Hc. destruct pattern; [|reflexivity].
  rewrite (contains_intro [] chars 0) in Hc; [discriminate|lia|reflexivity].
Qed.

(** A marker token is only emitted where its marker occurs. *)
Lemma lex_marker_occurs (d : defaults) (chars : str) (toks : list token) :
  _lex d chars = Ok toks ->
  Forall (fun t => forall pattern, marker_text d (TT_TAG t) = Some pattern ->
                   contains pattern chars = true) toks.
Proof.
  unfold _lex. intros H.
  destruct (lex_while (2 * length chars + 1) d chars (mkLex 0 [] None)) as [st| |] eqn:Hw;
    try discriminate.
  set (P := fun t : token => forall pattern, marker_text d (TT_TAG t) = Some pattern ->
                             contains pattern chars = true).
  assert (Hinv : (pos st <= length chars /\ Forall P (tokens st))).
  { refine (proj1 (lex_while_inv (fun st => pos st <= length chars /\ Forall P (tokens st))
                     d chars _ _ _ _ _ Hw)).
    - intros s [Hpos HP] Hlt. rewrite lex_body_spec by exact Hpos.
      destruct (first_match d chars (pos s)) as [[pattern tag]|] eqn:Hm.
      + destruct (first_match_some _ _ _ _ _ Hm) as [Hat Htag]. cbn [pos tokens]. split.
        * exact (matches_at_bound _ _ _ Hat Hlt).
        * apply Forall_app. split; [exact HP|]. apply Forall_app. split.
          -- unfold flush. destruct (token_literal_start s); constructor; [|constructor].
             intros p Hp. discriminate.
          -- constructor; [|constructor]. intros p Hp. cbn in Hp. rewrite Htag in Hp.
             injection Hp as <-. exact (contains_intro _ _ _ Hpos Hat).
      + destruct (token_literal_start s); cbn [pos tokens]; split; try lia; exact HP.
    - cbn. split; [lia|constructor]. }
  destruct Hinv as [_ HP]. cbn in H.
  destruct (token_literal_start st); injection H as <-; [|exact HP].
  apply Forall_app. split; [exact HP|]. constructor; [|constructor]. intros p Hp. discriminate.
Qed.

(** A string in which no marker occurs is lexed as one literal token. *)
Lemma lex_plain (d : defaults) (chars : str) :
  contains (ESCAPE_CHARACTER d) chars = false ->
  contains (fst (PARAMETER_INTERPOLATION_SENTINELS d)) chars = false ->
  contains (snd (PARAMETER_INTERPOLATION_SENTINELS d)) chars = false ->
  _lex d chars = Ok (match chars with [] => [] | _ => [(chars, LT_LITERAL)] end).
Proof.
  intros H1 H2 H3.
  assert (Hd : markers_nonempty d = true).
  { unfold markers_nonempty.
    now rewrite (contains_false_nonempty _ _ H1), (contains_false_nonempty _ _ H2),
      (contains_false_nonempty _ _ H3). }
  assert (Hno : forall pos, pos <= length chars -> first_match d chars pos = None).
  { intros pos Hle. unfold first_match. cbn.
    now rewrite (contains_false _ _ pos H1 Hle), (contains_false _ _ pos H2 Hle),
      (contains_false _ _ pos H3 Hle). }
  unfold _lex.
  destruct (lex_while_terminates d chars Hd (2 * length chars + 1) (mkLex 0 [] None)) as [st Hw].
  { unfold lex_measure; cbn. lia. }
  rewrite Hw. cbn [bind].
  destruct (lex_while_inv
              (fun st => pos st <= length chars /\ tokens st = [] /\
                         match token_literal_start st with
                         | None => pos st = 0
                         | Some start => start = 0 /\ 0 < length chars
                         end) d chars) with (fuel := 2 * length chars + 1)
              (st := mkLex 0 [] None) (st' := st) as [(Hpos & Htok & Hlit) Hge].
  - intros s (Hpos & Htok & Hlit) Hlt. rewrite lex_body_spec by exact Hpos.
    rewrite (Hno _ Hpos).
    destruct (token_literal_start s); cbn [pos tokens token_literal_start];
      repeat split; try lia; assumption.
  - cbn. repeat split; lia.
  - exact Hw.
  - rewrite Htok. destruct (token_literal_start st) as [start|].
    + destruct Hlit as [-> Hne]. cbn. destruct chars; [cbn in *; lia|reflexivity].
    + destruct chars; [reflexivity|cbn in *; lia].
Qed.

(** ** The parser *)

Lemma next_some (tokens : list token) (it index it' : nat) (token : token) :
  next tokens it = Some ((index, token), it') ->
  nth_error tokens it = Some token /\ index = it /\ it' = S it.
Proof.
  unfold next. destruct (nth_error tokens it); intros H; inversion H. now subst.
Qed.

Lemma next_at (tokens : list token) (it : nat) (token : token) :
  nth_error tokens it = Some token -> next tokens it = Some ((it, token), S it).
Proof. unfold next. now intros ->. Qed.

Lemma nth_error_following (A : Type) (pre : list A) (x : A) (following : list A) (k : nat) :
  nth_error (pre ++ x :: following) (length pre + S k) = nth_error following k.
Proof.
  rewrite nth_error_app2 by lia.
  replace (length pre + S k - length pre) with (S k) by lia. reflexivity.
Qed.

Lemma skipn_following (A : Type) (pre : list A) (x : A) (following : list A) :
  skipn (S (length pre)) (pre ++ x :: following) = following.
Proof.
  replace (S (length pre)) with (length (pre ++ [x])) by (rewrite length_app; cbn; lia).
  replace (pre ++ x :: following) with ((pre ++ [x]) ++ following) by now rewrite <- app_assoc.
  rewrite skipn_app, skipn_all, Nat.sub_diag. reflexivity.
Qed.

Lemma escapable_tag (t : token) :
  match TT_TAG t with LT_ESCAPE | LT_INTRPL_START => true | _ => false end = escapable (TT_TAG t).
Proof. now destruct (TT_TAG t). Qed.

(** The parser's step at an escape token is the escape rule of the
    specification. *)
Lemma parse_body_escape (d : defaults) (tokens : list token) (index : nat)
    (escape : token) (st : parse_state) :
  nth_error tokens index = Some escape ->
  TT_TAG escape = LT_ESCAPE ->
  token_iterator st = S index ->
  parse_body d tokens (Z.of_nat (length tokens) - 1) index escape st =
  let o := spec_escape_rule escape (skipn (S index) tokens) in
  Ok (mkParse (if consumes_next o then S (S index) else S index)
        (parts st ++ emitted o)
        (if sets_has_escapes o then set_has_escapes (p_self st) true else p_self st)).
Proof.
  intros Hnth Htag Hit.
  destruct (nth_error_split _ _ Hnth) as (pre & following & -> & Hlen). subst index.
  rewrite skipn_following. unfold parse_body. rewrite Htag. cbn [lt_eqb].
  rewrite length_app.
  destruct st as [it ps self]. cbn in Hit. subst it.
  unfold getitem, iterator_next, append_part. cbn [token_iterator parts p_self].
  replace (S (length pre)) with (length pre + 1) by lia.
  destruct following as [|t1 [|t2 following]].
  - repeat ztest. reflexivity.
  - repeat ztest.
    rewrite (nth_error_following _ pre escape [t1] 0).
    cbn [nth_error bind spec_escape_rule]. rewrite escapable_tag.
    destruct (escapable (TT_TAG t1)) eqn:E1; cbn [negb bind]; [|reflexivity].
    unfold next. rewrite (nth_error_following _ pre escape [t1] 0).
    cbn [nth_error bind token_iterator parts p_self].
    replace (S (length pre + 1)) with (length pre + 1 + 1) by lia.
    destruct (TT_TAG t1); reflexivity.
  - repeat ztest.
    rewrite (nth_error_following _ pre escape (t1 :: t2 :: following) 0).
    rewrite (nth_error_following _ pre escape (t1 :: t2 :: following) 1).
    cbn [nth_error bind spec_escape_rule]. rewrite !escapable_tag.
    destruct (escapable (TT_TAG t1)) eqn:E1; cbn [negb bind]; [|reflexivity].
    unfold next. rewrite (nth_error_following _ pre escape (t1 :: t2 :: following) 0).
    cbn [nth_error]. replace (S (length pre + 1)) with (length pre + 1 + 1) by lia.
    destruct (TT_TAG t1) eqn:T1; try discriminate; cbn [lt_eqb bind].
    + destruct (escapable (TT_TAG t2)); cbn [negb bind token_iterator parts p_self emitted
        consumes_next sets_has_escapes]; [reflexivity|]. now rewrite <- app_assoc.
    + reflexivity.
Qed.

Lemma firstn_S_nth (A : Type) (l : list A) (n : nat) (x : A) :
  nth_error l n = Some x -> firstn (S n) l = firstn n l ++ [x].
Proof.
  revert l. induction n as [|n IH]; intros [|y l] H; try discriminate.
  - cbn in H. injection H as ->. reflexivity.
  - cbn in H. rewrite !firstn_cons, (IH _ H). reflexivity.
Qed.

Lemma nth_error_lt (A : Type) (l : list A) (n : nat) (x : A) :
  nth_error l n = Some x -> n < length l.
Proof. intros H. apply nth_error_Some. congruence. Qed.

(** The comparison of a token with a tag in [_parse_interpolation] is
    false whatever the token. *)
Lemma py_eq_token_str (t : token) (s : str) : py_eq (token_obj t) (PyStr s) = false.
Proof. reflexivity. Qed.

(** One iteration of the loop of [_parse_interpolation]. *)
Lemma interpolation_while_unfold (fuel : nat) (d : defaults) (tokens : list token)
    (it : nat) (ps : list str) :
  interpolation_while (S fuel) d tokens it ps =
  match nth_error tokens it with
  | None =>
      Raise (IncompleteInterpolationError (concat ps) (snd (PARAMETER_INTERPOLATION_SENTINELS d)))
  | Some token =>
      if lt_eqb (TT_TAG token) LT_INTRPL_END then Ok (ps, S it)
      else if lt_eqb (TT_TAG token) LT_ESCAPE then
        match nth_error tokens (S it) with
        | None => Raise IndexError
        | Some _ => interpolation_while fuel d tokens (S it) (ps ++ [TT_TEXT token])
        end
      else interpolation_while fuel d tokens (S it) (ps ++ [TT_TEXT token])
  end.
Proof.
  cbn [interpolation_while]. unfold next, getitem. rewrite str_join_nil.
  destruct (nth_error tokens it) as [token|]; [|reflexivity].
  destruct (lt_eqb (TT_TAG token) LT_INTRPL_END); [reflexivity|].
  destruct (lt_eqb (TT_TAG token) LT_ESCAPE); [|reflexivity].
  replace (it + 1) with (S it) by lia.
  destruct (nth_error tokens (S it)) as [t1|]; [|reflexivity].
  cbn [bind]. now rewrite py_eq_token_str.
Qed.

Lemma lt_eqb_eq (a b : lt_tag) : lt_eqb a b = true <-> a = b.
Proof. destruct a, b; cbn; split; congruence. Qed.

(** A scan that ends took the tokens of a name and then an end marker. *)
Lemma interpolation_while_ok (d : defaults) (tokens : list token) (fuel : nat) :
  forall (it : nat) (ps ps' : list str) (it' : nat),
  interpolation_while fuel d tokens it ps = Ok (ps', it') ->
  exists body stop,
    firstn it' tokens = firstn it tokens ++ body ++ [stop]
    /\ TT_TAG stop = LT_INTRPL_END
    /\ ps' = ps ++ map TT_TEXT body
    /\ it' <= length tokens.
Proof.
  induction fuel as [|fuel IH]; intros it ps ps' it' H; [discriminate|].
  rewrite interpolation_while_unfold in H.
  destruct (nth_error tokens it) as [token|] eqn:Hn; [|discriminate].
  assert (Hrec : interpolation_while fuel d tokens (S it) (ps ++ [TT_TEXT token]) = Ok (ps', it') ->
                 exists body stop,
                   firstn it' tokens = firstn it tokens ++ body ++ [stop]
                   /\ TT_TAG stop = LT_INTRPL_END
                   /\ ps' = ps ++ map TT_TEXT body
                   /\ it' <= length tokens).
  { intros Hr. destruct (IH _ _ _ _ Hr) as (body & stop & Hf & Ht & Hp & Hl).
    exists (token :: body), stop. repeat split; try assumption.
    - rewrite Hf, (firstn_S_nth _ _ _ _ Hn), <- app_assoc. reflexivity.
    - rewrite Hp, <- app_assoc. reflexivity. }
  destruct (lt_eqb (TT_TAG token) LT_INTRPL_END) eqn:E.
  - injection H as <- <-. exists [], token. repeat split.
    + now rewrite (firstn_S_nth _ _ _ _ Hn).
    + now apply lt_eqb_eq.
    + now rewrite app_nil_r.
    + apply nth_error_lt in Hn. lia.
  - destruct (lt_eqb (TT_TAG token) LT_ESCAPE); [|now apply Hrec].
    destruct (nth_error tokens (S it)); [now apply Hrec|discriminate].
Qed.

(** The scan ends within its bound. *)
Lemma interpolation_while_ends (d : defaults) (tokens : list token) (fuel : nat) :
  forall (it : nat) (ps : list str),
  length tokens - it < fuel -> interpolation_while fuel d tokens it ps <> Diverge.
Proof.
  induction fuel as [|fuel IH]; intros it ps Hlt; [lia|].
  rewrite interpolation_while_unfold.
  destruct (nth_error tokens it) as [token|] eqn:Hn; [|discriminate].
  apply nth_error_lt in Hn.
  assert (Hrec : forall ps0, interpolation_while fuel d tokens (S it) ps0 <> Diverge)
    by (intros ps0; apply IH; lia).
  destruct (lt_eqb (TT_TAG token) LT_INTRPL_END); [discriminate|].
  destruct (lt_eqb (TT_TAG token) LT_ESCAPE); [|apply Hrec].
  destruct (nth_error tokens (S it)); [apply Hrec|discriminate].
Qed.

(** The exceptions a scan can raise. *)
Lemma interpolation_while_raise (d : defaults) (tokens : list token) (fuel : nat) :
  forall (it : nat) (ps : list str) (e : exn),
  interpolation_while fuel d tokens it ps = Raise e ->
  e = IndexError \/
  exists name, e = IncompleteInterpolationError name (snd (PARAMETER_INTERPOLATION_SENTINELS d)).
Proof.
  induction fuel as [|fuel IH]; intros it ps e H; [discriminate|].
  rewrite interpolation_while_unfold in H.
  destruct (nth_error tokens it) as [token|] eqn:Hn.
  - destruct (lt_eqb (TT_TAG token) LT_INTRPL_END); [discriminate|].
    destruct (lt_eqb (TT_TAG token) LT_ESCAPE); [|now apply IH in H].
    destruct (nth_error tokens (S it)); [now apply IH in H|].
    injection H as <-. now left.
  - injection H as <-. right. eauto.
Qed.

Lemma parse_interpolation_ok (d : defaults) (tokens : list token) (it it' : nat) (name : str) :
  _parse_interpolation d it tokens = Ok (name, it') ->
  exists body stop,
    firstn it' tokens = firstn it tokens ++ body ++ [stop]
    /\ TT_TAG stop = LT_INTRPL_END
    /\ name = concat (map TT_TEXT body)
    /\ body <> []
    /\ it' <= length tokens.
Proof.
  unfold _parse_interpolation. intros H.
  destruct (interpolation_while (S (length tokens)) d tokens it []) as [[ps it1]| |] eqn:Hw;
    try discriminate.
  cbn [bind] in H.
  destruct (interpolation_while_ok _ _ _ _ _ _ _ Hw) as (body & stop & Hf & Ht & Hp & Hl).
  cbn [app] in Hp. subst ps.
  destruct (length (map TT_TEXT body) =? 0) eqn:E; [discriminate|].
  injection H as <- <-. exists body, stop. rewrite str_join_nil. repeat split; try assumption.
  intros ->. discriminate.
Qed.

Lemma skipn_head (A : Type) (l : list A) (n : nat) (x : A) (rest : list A) :
  skipn n l = x :: rest -> nth_error l n = Some x.
Proof.
  intros H. rewrite <- (Nat.add_0_r n), <- nth_error_skipn, H. reflexivity.
Qed.

(** One iteration of the loop of [_parse] that does not raise: what it
    takes and what it adds. *)
Lemma parse_body_ok (d : defaults) (tokens : list token) (index : nat) (token : token)
    (st st' : parse_state) :
  nth_error tokens index = Some token ->
  token_iterator st = S index ->
  parse_body d tokens (Z.of_nat (length tokens) - 1) index token st = Ok st' ->
  exists toks ps h,
    step_shape toks ps h
    /\ firstn (token_iterator st') tokens = firstn index tokens ++ toks
    /\ S index <= token_iterator st' <= length tokens
    /\ parts st' = parts st ++ ps
    /\ p_self st' = (if h then set_has_escapes (p_self st) true else p_self st).
Proof.
  intros Hn Hit H.
  pose proof (nth_error_lt _ _ _ _ Hn) as Hlt.
  assert (Hone : forall st0, st0 = append_part st (mkPart PT_LITERAL (TT_TEXT token)) ->
            exists toks ps h,
              step_shape toks ps h
              /\ firstn (token_iterator st0) tokens = firstn index tokens ++ toks
              /\ S index <= token_iterator st0 <= length tokens
              /\ parts st0 = parts st ++ ps
              /\ p_self st0 = (if h then set_has_escapes (p_self st) true else p_self st)).
  { intros st0 ->. exists [token], [mkPart PT_LITERAL (TT_TEXT token)], false.
    cbn [append_part token_iterator parts p_self]. rewrite Hit. repeat split; try lia.
    - apply (shape_verbatim [token]).
    - apply firstn_S_nth, Hn. }
  destruct (TT_TAG token) eqn:Htag.
  - rewrite (parse_body_escape d tokens index token st Hn Htag Hit) in H.
    cbv zeta in H.
    remember (spec_escape_rule token (skipn (S index) tokens)) as o eqn:Ho.
    injection H as <-. cbn [token_iterator parts p_self].
    destruct (skipn (S index) tokens) as [|t1 after] eqn:Hs;
      cbv beta iota zeta delta [spec_escape_rule] in Ho.
    + subst o. cbn [consumes_next emitted sets_has_escapes].
      destruct (Hone _ eq_refl) as (toks & ps & h & H1 & H2 & H3 & H4 & H5).
      cbn [append_part token_iterator parts p_self] in *. rewrite Hit in *.
      exists toks, ps, h. repeat split; try assumption; lia.
    + pose proof (skipn_head _ _ _ _ _ Hs) as Hn1.
      pose proof (nth_error_lt _ _ _ _ Hn1) as Hlt1.
      assert (Hf2 : firstn (S (S index)) tokens = firstn index tokens ++ [token; t1]).
      { rewrite (firstn_S_nth _ _ _ _ Hn1), (firstn_S_nth _ _ _ _ Hn), <- app_assoc. reflexivity. }
      assert (Hesc : exists toks ps h,
                step_shape toks ps h
                /\ firstn (S (S index)) tokens = firstn index tokens ++ toks
                /\ S index <= S (S index) <= length tokens
                /\ parts st ++ [mkPart PT_LITERAL (TT_TEXT t1)] = parts st ++ ps
                /\ set_has_escapes (p_self st) true =
                   (if h then set_has_escapes (p_self st) true else p_self st)).
      { exists [token; t1], [mkPart PT_LITERAL (TT_TEXT t1)], true.
        repeat split; try lia; try assumption. now apply shape_escaped. }
      rewrite !escapable_tag in Ho.
      destruct (escapable (TT_TAG t1)); cbn [negb] in Ho.
      * destruct (TT_TAG t1); try (subst o; exact Hesc).
        destruct after as [|t2 after]; [subst o; exact Hesc|]. rewrite !escapable_tag in Ho.
        destruct (escapable (TT_TAG t2)); cbn [negb] in Ho; subst o; [exact Hesc|].
        exists [token; t1], [mkPart PT_LITERAL (TT_TEXT token); mkPart PT_LITERAL (TT_TEXT t1)], false.
        cbn [token_iterator parts p_self consumes_next emitted sets_has_escapes].
        repeat split; try lia; try assumption. apply (shape_verbatim [token; t1]).
      * subst o. cbn [consumes_next emitted sets_has_escapes].
        destruct (Hone _ eq_refl) as (toks & ps & h & H1 & H2 & H3 & H4 & H5).
        cbn [append_part token_iterator parts p_self] in *. rewrite Hit in *.
        exists toks, ps, h. repeat split; try assumption; lia.
  - unfold parse_body in H. rewrite Htag in H. cbn [lt_eqb] in H.
    destruct (_parse_interpolation d (token_iterator st) tokens) as [[name it']| |] eqn:Hp;
      try discriminate.
    cbn [bind] in H. injection H as <-.
    destruct (parse_interpolation_ok _ _ _ _ _ Hp) as (body & stop & Hf & Ht & Hname & Hne & Hl).
    rewrite Hit, (firstn_S_nth _ _ _ _ Hn), <- app_assoc in Hf.
    exists (token :: body ++ [stop]), [mkPart PT_REFERENCE name], false.
    cbn [append_part token_iterator parts p_self]. repeat split; try assumption.
    + subst name. now apply shape_reference.
    + apply (f_equal (@length _)) in Hf.
      rewrite length_firstn, !length_app, length_firstn in Hf. cbn [length] in Hf. lia.
  - unfold parse_body in H. rewrite Htag in H. cbn [lt_eqb] in H. injection H as <-.
    now apply Hone.
  - unfold parse_body in H. rewrite Htag in H. cbn [lt_eqb] in H. injection H as <-.
    now apply Hone.
Qed.

Lemma parse_for_unfold (fuel : nat) (d : defaults) (tokens : list token) (last : Z)
    (st : parse_state) :
  parse_for fuel d tokens last st =
  match next tokens (token_iterator st) with
  | None => Ok st
  | Some ((index, token), it) =>
      match fuel with
      | O => Diverge
      | S fuel' =>
          st' <- parse_body d tokens last index token (mkParse it (parts st) (p_self st)) ;;
          parse_for fuel' d tokens last st'
      end
  end.
Proof. destruct fuel; reflexivity. Qed.

(** The loop of [_parse] ends in a state it reaches, with the iterator
    exhausted. *)
Lemma parse_for_reaches (d : defaults) (tokens : list token) (self : RefValue) (fuel : nat) :
  forall st st',
  parse_reaches d tokens self st ->
  parse_for fuel d tokens (Z.of_nat (length tokens) - 1) st = Ok st' ->
  parse_reaches d tokens self st' /\ length tokens <= token_iterator st'.
Proof.
  induction fuel as [|fuel IH]; intros st st' Hr H; rewrite parse_for_unfold in H;
    destruct (next tokens (token_iterator st)) as [[[index token] it]|] eqn:Hn;
    try discriminate;
    try (injection H as <-; split; [exact Hr|]; unfold next in Hn;
         destruct (nth_error tokens (token_iterator st)) eqn:E; [discriminate|];
         now apply nth_error_None in E).
  destruct (parse_body d tokens (Z.of_nat (length tokens) - 1) index token
              (mkParse it (parts st) (p_self st))) as [st1| |] eqn:Hb; try discriminate.
  cbn [bind] in H. apply (IH _ _ (reaches_step d tokens self st st1 index token it Hr Hn Hb) H).
Qed.

(** A state the loop reaches has parsed the tokens before its iterator. *)
Lemma parse_reaches_shape (d : defaults) (tokens : list token) (self : RefValue)
    (st : parse_state) :
  parse_reaches d tokens self st ->
  token_iterator st <= length tokens
  /\ exists h,
       parse_shape (firstn (token_iterator st) tokens) (parts st) h
       /\ p_self st = (if h then set_has_escapes self true else self).
Proof.
  induction 1 as [|st st' index token it Hr IH Hn Hb].
  - cbn. split; [lia|]. exists false. split; [constructor|reflexivity].
  - destruct IH as (Hle & h1 & Hs & Hself).
    destruct (next_some _ _ _ _ _ Hn) as (Hnth & -> & ->).
    destruct (parse_body_ok d tokens _ token
                (mkParse (S (token_iterator st)) (parts st) (p_self st)) st' Hnth eq_refl Hb)
      as (toks & ps & h2 & Hshape & Hf & Hrange & Hparts & Hself').
    cbn [token_iterator parts p_self] in *.
    split; [lia|]. exists (h1 || h2). split.
    + rewrite Hf, Hparts. now constructor.
    + rewrite Hself', Hself. destruct h1, h2; reflexivity.
Qed.

Lemma parse_interpolation_ends (d : defaults) (tokens : list token) (it : nat) :
  _parse_interpolation d it tokens <> Diverge.
Proof.
  unfold _parse_interpolation.
  pose proof (interpolation_while_ends d tokens (S (length tokens)) it []) as H.
  destruct (interpolation_while (S (length tokens)) d tokens it []) as [[ps it']| |];
    cbn [bind]; try discriminate.
  - destruct (length ps =? 0); discriminate.
  - exfalso. apply H; [lia|reflexivity].
Qed.

Lemma parse_interpolation_raise (d : defaults) (tokens : list token) (it : nat) (e : exn) :
  _parse_interpolation d it tokens = Raise e -> parse_error d e.
Proof.
  unfold _parse_interpolation, parse_error. intros H.
  destruct (interpolation_while (S (length tokens)) d tokens it []) as [[ps it']| |] eqn:Hw;
    cbn [bind] in H; try discriminate.
  - destruct (length ps =? 0); [|discriminate]. injection H as <-. now right; right.
  - injection H as <-. destruct (interpolation_while_raise _ _ _ _ _ _ Hw) as [->|Hx]; auto.
Qed.

(** An iteration of the loop of [_parse] gives a state or raises one of the
    exceptions of the sub-scan, and raises only at a start marker. *)
Lemma parse_body_total (d : defaults) (tokens : list token) (index : nat) (token : token)
    (st : parse_state) :
  nth_error tokens index = Some token ->
  token_iterator st = S index ->
  (exists st', parse_body d tokens (Z.of_nat (length tokens) - 1) index token st = Ok st')
  \/ (exists e, parse_body d tokens (Z.of_nat (length tokens) - 1) index token st = Raise e
                /\ parse_error d e /\ TT_TAG token = LT_INTRPL_START).
Proof.
  intros Hn Hit. destruct (TT_TAG token) eqn:Htag.
  - left. rewrite (parse_body_escape d tokens index token st Hn Htag Hit). eauto.
  - unfold parse_body. rewrite Htag. cbn [lt_eqb].
    destruct (_parse_interpolation d (token_iterator st) tokens) as [[name it']| |] eqn:Hp;
      cbn [bind].
    + left. eauto.
    + right. exists e. repeat split. exact (parse_interpolation_raise _ _ _ _ Hp).
    + exfalso. exact (parse_interpolation_ends _ _ _ Hp).
  - left. unfold parse_body. rewrite Htag. cbn [lt_eqb]. eauto.
  - left. unfold parse_body. rewrite Htag. cbn [lt_eqb]. eauto.
Qed.

(** The loop of [_parse] ends within its bound, in a state or with one of
    the exceptions of the sub-scan. *)
Lemma parse_for_total (d : defaults) (tokens : list token) (fuel : nat) :
  forall st,
  length tokens - token_iterator st <= fuel ->
  (exists st', parse_for fuel d tokens (Z.of_nat (length tokens) - 1) st = Ok st')
  \/ (exists e, parse_for fuel d tokens (Z.of_nat (length tokens) - 1) st = Raise e
                /\ parse_error d e).
Proof.
  induction fuel as [|fuel IH]; intros st Hf; rewrite parse_for_unfold;
    destruct (next tokens (token_iterator st)) as [[[index token] it]|] eqn:Hn;
    try (left; eauto; fail);
    destruct (next_some _ _ _ _ _ Hn) as (Hnth & -> & ->);
    pose proof (nth_error_lt _ _ _ _ Hnth) as Hlt; [lia|].
  destruct (parse_body_total d tokens (token_iterator st) token
              (mkParse (S (token_iterator st)) (parts st) (p_self st)) Hnth eq_refl)
    as [[st1 Hb]|(e & Hb & He & _)]; rewrite Hb; cbn [bind].
  - apply IH.
    destruct (parse_body_ok d tokens _ token
                (mkParse (S (token_iterator st)) (parts st) (p_self st)) st1 Hnth eq_refl Hb)
      as (_ & _ & _ & _ & _ & Hrange & _).
    lia.
  - right. eauto.
Qed.

(** From a state the loop reaches, the loop goes on as if started there. *)
Lemma parse_for_resume (d : defaults) (tokens : list token) (self : RefValue)
    (st : parse_state) :
  parse_reaches d tokens self st ->
  exists k, k <= token_iterator st /\
    forall fuel,
      parse_for (k + fuel) d tokens (Z.of_nat (length tokens) - 1) (mkParse 0 [] self) =
      parse_for fuel d tokens (Z.of_nat (length tokens) - 1) st.
Proof.
  induction 1 as [|st st' index token it Hr IH Hn Hb].
  - exists 0. split; [cbn; lia|reflexivity].
  - destruct IH as (k & Hk & Hfuel).
    destruct (next_some _ _ _ _ _ Hn) as (Hnth & -> & ->).
    destruct (parse_body_ok d tokens _ token
                (mkParse (S (token_iterator st)) (parts st) (p_self st)) st' Hnth eq_refl Hb)
      as (_ & _ & _ & _ & _ & Hrange & _).
    exists (S k). split; [lia|]. intros fuel.
    replace (S k + fuel) with (k + S fuel) by lia.
    rewrite Hfuel, parse_for_unfold, Hn, Hb. reflexivity.
Qed.

(** What [_parse] returns has the shape of a run over all the tokens. *)
Lemma parse_ok (d : defaults) (self : RefValue) (tokens : list token)
    (ps : list part) (self' : RefValue) :
  _parse d self tokens = Ok (ps, self') ->
  exists h, parse_shape tokens ps h
            /\ self' = (if h then set_has_escapes self true else self).
Proof.
  unfold _parse. intros H.
  destruct (parse_for (length tokens) d tokens (Z.of_nat (length tokens) - 1)
              (mkParse 0 [] self)) as [st| |] eqn:Hf; try discriminate.
  cbn [bind] in H. injection H as <- <-.
  destruct (parse_for_reaches d tokens self _ _ _ (reaches_start d tokens self) Hf) as [Hr Hge].
  destruct (parse_reaches_shape _ _ _ _ Hr) as (Hle & h & Hs & Hself).
  exists h. split; [|exact Hself]. now rewrite firstn_all2 in Hs by lia.
Qed.

Lemma parse_total (d : defaults) (self : RefValue) (tokens : list token) :
  (exists ps self', _parse d self tokens = Ok (ps, self'))
  \/ (exists e, _parse d self tokens = Raise e /\ parse_error d e).
Proof.
  unfold _parse.
  destruct (parse_for_total d tokens (length tokens) (mkParse 0 [] self)) as [[st H]|(e & H & He)];
    [cbn; lia| |]; rewrite H; cbn [bind]; eauto.
Qed.

(** A successfully constructed object: its attributes. *)
Lemma init_ok (d : defaults) (s delim : str) (rv : RefValue) :
  __init__ d s delim = Ok rv ->
  exists toks h,
    _lex d s = Ok toks
    /\ parse_shape toks (_parts rv) h
    /\ rv = mkRefValue (Some (map data (filter is_reference (_parts rv)))) s delim h toks
              (_parts rv).
Proof.
  unfold __init__. intros H.
  destruct (_lex d s) as [toks| |] eqn:Hl; try discriminate. cbn [bind] in H.
  change (set_tokens (mkRefValue None s delim false [] []) toks)
    with (mkRefValue None s delim false toks []) in H.
  cbn [_tokens] in H.
  destruct (_parse d (mkRefValue None s delim false toks []) toks) as [[ps self']| |] eqn:Hp;
    try discriminate.
  cbn [bind] in H.
  destruct (parse_ok _ _ _ _ _ Hp) as (h & Hs & ->).
  exists toks, h.
  destruct h; cbn in H; injection H as <-; cbn; auto.
Qed.

Lemma lex_while_never_raises (d : defaults) (chars : str) (fuel : nat) :
  forall st e, lex_while fuel d chars st <> Raise e.
Proof.
  induction fuel as [|fuel IH]; intros st e; rewrite lex_while_unfold;
    destruct (pos st <? length chars); try discriminate. apply IH.
Qed.

Lemma lex_never_raises (d : defaults) (chars : str) (e : exn) : _lex d chars <> Raise e.
Proof.
  unfold _lex. intros H.
  destruct (lex_while (2 * length chars + 1) d chars (mkLex 0 [] None)) as [st| |] eqn:Hw;
    cbn [bind] in H; try discriminate.
  - destruct (token_literal_start st); discriminate.
  - exact (lex_while_never_raises _ _ _ _ _ Hw).
Qed.

(** Construction raises nothing but the exceptions of the sub-scan. *)
Lemma init_raise (d : defaults) (s delim : str) (e : exn) :
  __init__ d s delim = Raise e -> parse_error d e.
Proof.
  unfold __init__. intros H.
  destruct (_lex d s) as [toks| |] eqn:Hl; try discriminate.
  - cbn [bind] in H.
    change (set_tokens (mkRefValue None s delim false [] []) toks)
      with (mkRefValue None s delim false toks []) in H.
    cbn [_tokens] in H.
    destruct (parse_total d (mkRefValue None s delim false toks []) toks)
      as [(ps & self' & Hp)|(e' & Hp & He)]; rewrite Hp in H; cbn [bind] in H.
    + unfold get_references in H. destruct (_refs (set_parts self' ps)); discriminate.
    + injection H as <-. exact He.
  - exfalso. exact (lex_never_raises _ _ _ Hl).
Qed.

(** ** Accessors and rendering *)

(** With non-empty markers construction ends: it gives an object or raises
    one of the exceptions of the sub-scan. *)
Lemma init_total (d : defaults) (s delim : str) :
  markers_nonempty d = true ->
  (exists rv, __init__ d s delim = Ok rv)
  \/ (exists e, __init__ d s delim = Raise e /\ parse_error d e).
Proof.
  intros Hd. destruct (lex_terminates d s Hd) as [toks Hl].
  unfold __init__. rewrite Hl. cbn [bind].
  change (set_tokens (mkRefValue None s delim false [] []) toks)
    with (mkRefValue None s delim false toks []).
  cbn [_tokens].
  destruct (parse_total d (mkRefValue None s delim false toks []) toks)
    as [(ps & self' & Hp)|(e & Hp & He)]; rewrite Hp; cbn [bind].
  - left. unfold get_references. destruct (_refs (set_parts self' ps)); eauto.
  - right. eauto.
Qed.

Lemma get_references_stored (self : RefValue) (refs : list str) :
  _refs self = Some refs -> get_references self = (refs, self).
Proof. unfold get_references. now intros ->. Qed.

Lemma has_references_stored (self : RefValue) (refs : list str) :
  _refs self = Some refs -> has_references self = (0 <? length refs, self).
Proof. unfold has_references. intros H. now rewrite (get_references_stored _ _ H). Qed.

Lemma init_refs (d : defaults) (s delim : str) (rv : RefValue) :
  __init__ d s delim = Ok rv ->
  _refs rv = Some (map data (filter is_reference (_parts rv)))
  /\ _string rv = s /\ _delim rv = delim.
Proof.
  intros H. destruct (init_ok _ _ _ _ H) as (toks & h & _ & _ & E).
  rewrite E. cbn. auto.
Qed.

Lemma single_reference (ps : list part) :
  length ps = 1 -> 0 < length (map data (filter is_reference ps)) ->
  exists name, ps = [mkPart PT_REFERENCE name].
Proof.
  destruct ps as [|[[|] name] [|q ps]]; cbn; intros H1 H2; try discriminate; try lia.
  now exists name.
Qed.

Lemma find_first (A : Type) (f : A -> bool) (l : list A) (x : A) :
  List.find f l = Some x ->
  exists before after, l = before ++ x :: after
                       /\ Forall (fun y => f y = false) before /\ f x = true.
Proof.
  induction l as [|a l IH]; [discriminate|]. cbn. destruct (f a) eqn:E.
  - intros H. injection H as <-. exists [], l. auto.
  - intros H. destruct (IH H) as (before & after & -> & Hb & Hx).
    exists (a :: before), after. auto.
Qed.

Section RenderProperties.

Variable value : Type.
Variable VStr : str -> value.
Variable py_str : value -> builtin_result.
Variable context : Type.
Variable dictpath_get_value : str -> str -> context -> option value.

Local Abbreviation assemble := (_assemble value VStr py_str).
Local Abbreviation render_ := (render value VStr py_str context dictpath_get_value).
Local Abbreviation resolve_ := (_resolve value context dictpath_get_value).

(** [_assemble] on an object whose reference list is stored. *)
Lemma assemble_stored (self : RefValue) (resolver : str -> result value) :
  _refs self = Some (map data (filter is_reference (_parts self))) ->
  assemble self resolver =
  let refs := map data (filter is_reference (_parts self)) in
  if negb (0 <? length refs) && negb (_has_escapes self)
  then (Ok (VStr (_string self)), self)
  else if (length (_parts self) =? 1) && (0 <? length refs)
  then (p <- getitem (_parts self) 0 ;; resolver (data p), self)
  else (ret <- assemble_for value py_str (_parts self) resolver [] ;; Ok (VStr ret), self).
Proof.
  intros H. unfold _assemble. rewrite (has_references_stored _ _ H). cbv zeta.
  unfold has_escapes.
  destruct (negb (0 <? length (map data (filter is_reference (_parts self))))
            && negb (_has_escapes self)); [reflexivity|].
  destruct (length (_parts self) =? 1); cbn [andb].
  - rewrite (has_references_stored _ _ H). reflexivity.
  - reflexivity.
Qed.

(** The general path at a reference part: the lookup, then [str()] of the
    value, then the parts that follow. *)
Lemma assemble_for_reference (self : RefValue) (ctx : context) (name : str)
    (ps : list part) (ret : str) :
  assemble_for value py_str (mkPart PT_REFERENCE name :: ps) (fun s => resolve_ self s ctx) ret
  = match dictpath_get_value (_delim self) name ctx with
    | None => Raise (UndefinedVariableError name)
    | Some v =>
        match py_str v with
        | Returns text =>
            assemble_for value py_str ps (fun s => resolve_ self s ctx) (ret ++ text)
        | Throws class_name => Raise (BuiltinError class_name)
        end
    end.
Proof.
  cbn [assemble_for ptype data].
  assert (Hr : resolve_ self name ctx =
               match dictpath_get_value (_delim self) name ctx with
               | Some v => Ok v
               | None => Raise (UndefinedVariableError name)
               end) by reflexivity.
  rewrite Hr.
  destruct (dictpath_get_value (_delim self) name ctx) as [v|]; cbn [bind]; [|reflexivity].
  destruct (py_str v); reflexivity.
Qed.

(** What the general path raises: the undefined-variable error of a
    reference the lookup does not find, or what [str()] raises on the value
    of a reference. *)
Lemma assemble_for_raise (self : RefValue) (ctx : context) (ps : list part) :
  forall ret e,
  assemble_for value py_str ps (fun s => resolve_ self s ctx) ret = Raise e ->
  (exists name, In name (map data (filter is_reference ps))
                /\ e = UndefinedVariableError name
                /\ dictpath_get_value (_delim self) name ctx = None)
  \/ (exists name v class_name,
        In name (map data (filter is_reference ps))
        /\ dictpath_get_value (_delim self) name ctx = Some v
        /\ py_str v = Throws class_name /\ e = BuiltinError class_name).
Proof.
  induction ps as [|[[|] name] ps IH]; intros ret e H.
  - discriminate.
  - cbn [assemble_for ptype data] in H. cbn [filter is_reference ptype]. exact (IH _ _ H).
  - rewrite assemble_for_reference in H. cbn [filter is_reference ptype map data].
    destruct (dictpath_get_value (_delim self) name ctx) as [v|] eqn:E.
    + destruct (py_str v) as [text|class_name] eqn:Es.
      * destruct (IH _ _ H) as [(n & Hin & He & Hn)|(n & v' & c & Hin & Hn & Hs & He)].
        -- left. exists n. cbn. auto.
        -- right. exists n, v', c. cbn. auto.
      * injection H as <-. right. exists name, v, class_name. cbn. auto.
    + injection H as <-. left. exists name. cbn. auto.
Qed.

(** When the general path raises the undefined-variable error, its name is
    the first reference the lookup does not find. *)
Lemma assemble_for_raise_undefined (self : RefValue) (ctx : context) (name : str)
    (ps : list part) :
  forall ret,
  assemble_for value py_str ps (fun s => resolve_ self s ctx) ret
  = Raise (UndefinedVariableError name) ->
  exists before after,
    map data (filter is_reference ps) = before ++ name :: after
    /\ Forall (fun n => dictpath_get_value (_delim self) n ctx <> None) before
    /\ dictpath_get_value (_delim self) name ctx = None.
Proof.
  induction ps as [|[[|] name0] ps IH]; intros ret H.
  - discriminate.
  - cbn [assemble_for ptype data] in H. cbn [filter is_reference ptype]. exact (IH _ H).
  - rewrite assemble_for_reference in H. cbn [filter is_reference ptype map data].
    destruct (dictpath_get_value (_delim self) name0 ctx) as [v|] eqn:E.
    + destruct (py_str v) as [text|class_name]; [|discriminate].
      destruct (IH _ H) as (before & after & Hl & Hb & Hn).
      exists (name0 :: before), after. rewrite Hl. repeat split; try assumption.
      constructor; [congruence|exact Hb].
    + injection H as <-. exists [], (map data (filter is_reference ps)). auto.
Qed.

(** When the lookup finds the references before the first one it does not
    find, and [str()] returns on their values, the general path raises the
    undefined-variable error of that one. *)
Lemma assemble_for_first_absent (self : RefValue) (ctx : context) (name : str)
    (after : list str) (ps : list part) :
  forall before ret,
  map data (filter is_reference ps) = before ++ name :: after ->
  Forall (fun n => exists v text, dictpath_get_value (_delim self) n ctx = Some v
                                  /\ py_str v = Returns text) before ->
  dictpath_get_value (_delim self) name ctx = None ->
  assemble_for value py_str ps (fun s => resolve_ self s ctx) ret
  = Raise (UndefinedVariableError name).
Proof.
  induction ps as [|[[|] name0] ps IH]; intros before ret Hl Hb Hn.
  - destruct before; discriminate.
  - cbn [assemble_for ptype data]. cbn [filter is_reference ptype] in Hl.
    exact (IH _ _ Hl Hb Hn).
  - rewrite assemble_for_reference. cbn [filter is_reference ptype map data] in Hl.
    destruct before as [|b before].
    + cbn in Hl. injection Hl as -> _. now rewrite Hn.
    + cbn in Hl. injection Hl as -> Hl.
      inversion Hb as [|? ? (v & text & Hv & Hs) Hb']; subst.
      rewrite Hv, Hs. exact (IH _ _ Hl Hb' Hn).
Qed.

(** With a reference the lookup does not find, the general path raises. *)
Lemma assemble_for_absent (self : RefValue) (ctx : context) (name : str) (ps : list part) :
  In name (map data (filter is_reference ps)) ->
  dictpath_get_value (_delim self) name ctx = None ->
  forall ret, exists e,
    assemble_for value py_str ps (fun s => resolve_ self s ctx) ret = Raise e.
Proof.
  induction ps as [|[[|] name0] ps IH]; intros Hin Hn ret.
  - destruct Hin.
  - cbn [assemble_for ptype data]. cbn [filter is_reference ptype] in Hin. exact (IH Hin Hn _).
  - rewrite assemble_for_reference. cbn [filter is_reference ptype map data] in Hin.
    destruct (dictpath_get_value (_delim self) name0 ctx) as [v|] eqn:E; [|eauto].
    destruct (py_str v) as [text|class_name]; [|eauto].
    destruct Hin as [<-|Hin]; [congruence|]. exact (IH Hin Hn _).
Qed.

(** What [render] gives on a constructed object, by the three paths of
    [_assemble]. *)
Lemma render_constructed (d : defaults) (s delim : str) (rv : RefValue) (ctx : context) :
  __init__ d s delim = Ok rv ->
  snd (render_ rv ctx) = rv /\
  let refs := map data (filter is_reference (_parts rv)) in
  (refs = [] /\ _has_escapes rv = false /\ fst (render_ rv ctx) = Ok (VStr s))
  \/ (exists name, _parts rv = [mkPart PT_REFERENCE name]
                   /\ fst (render_ rv ctx) = resolve_ rv name ctx)
  \/ ((forall name, _parts rv <> [mkPart PT_REFERENCE name])
      /\ fst (render_ rv ctx) =
         (ret <- assemble_for value py_str (_parts rv) (fun s => resolve_ rv s ctx) [] ;;
          Ok (VStr ret))).
Proof.
  intros H. destruct (init_refs _ _ _ _ H) as (Hrefs & Hs & Hd).
  unfold render. rewrite (assemble_stored _ _ Hrefs). cbv zeta.
  destruct (map data (filter is_reference (_parts rv))) as [|r refs] eqn:Er.
  - cbn [length Nat.ltb Nat.leb negb andb].
    destruct (_has_escapes rv) eqn:Eh; cbn [negb andb].
    + rewrite andb_false_r. cbn [snd fst]. split; [reflexivity|]. right. right.
      split; [|reflexivity]. intros name E. rewrite E in Er. discriminate.
    + cbn [snd fst]. split; [reflexivity|]. left. now rewrite Hs.
  - cbn [negb andb]. replace (0 <? length (r :: refs)) with true by reflexivity.
    cbn [negb andb]. rewrite andb_true_r.
    destruct (Nat.eqb_spec (length (_parts rv)) 1) as [E1|E1]; cbn [snd fst].
    + split; [reflexivity|]. right. left.
      destruct (single_reference (_parts rv) E1) as [name Hn]; [rewrite Er; cbn; lia|].
      exists name. split; [exact Hn|]. now rewrite Hn.
    + split; [reflexivity|]. right. right. split; [|reflexivity].
      intros name E. rewrite E in E1. now apply E1.
Qed.

End RenderProperties.

(** ** Main results on the lexer and the parser *)

(** C10: whenever the lexer returns, the texts of its tokens, concatenated
    in order, are the input string and no literal token has an empty text;
    and with non-empty markers it returns for every input string. *)
Theorem lex_concat_is_input (d : defaults) (chars : str) :
  (forall toks,
     _lex d chars = Ok toks ->
     concat (map TT_TEXT toks) = chars
     /\ Forall (fun t => TT_TAG t = LT_LITERAL -> TT_TEXT t <> []) toks)
  /\ (markers_nonempty d = true -> exists toks, _lex d chars = Ok toks).
Proof.
  split; [|apply lex_terminates].
  intros toks Hl. destruct (lex_lossless _ _ _ Hl) as [Hcat Hok].
  split; [exact Hcat|].
  eapply Forall_impl; [|exact Hok].
  intros t Ht Htag. unfold token_ok in Ht. now rewrite Htag in Ht.
Qed.

Lemma lex_concat_is_input_witness :
  exists toks,
    _lex spec_defaults (lit "a \${b} and ${c}") = Ok toks
    /\ concat (map TT_TEXT toks) = lit "a \${b} and ${c}"
    /\ Forall (fun t => TT_TAG t = LT_LITERAL -> TT_TEXT t <> []) toks.
Proof.
  destruct (proj2 (lex_concat_is_input spec_defaults (lit "a \${b} and ${c}")) eq_refl)
    as [toks Hl].
  exists toks. split; [exact Hl|].
  exact (proj1 (lex_concat_is_input spec_defaults (lit "a \${b} and ${c}")) toks Hl).
Defined.

(** C5: at an escape token outside an interpolation the parser does what
    the four cases of the specification say, for every token sequence: last
    token, or next token not escapable: the escape is a literal and nothing
    more is taken; next token an escape and the one after it present and not
    escapable: both escapes are literals and the next token is taken;
    otherwise: the next token's text is the only literal, the next token is
    taken and [_has_escapes] is set. *)
Theorem escape_adjacency_cases (d : defaults) (tokens : list token) (index : nat)
    (escape : token) (st : parse_state) :
  nth_error tokens index = Some escape ->
  TT_TAG escape = LT_ESCAPE ->
  token_iterator st = S index ->
  parse_body d tokens (Z.of_nat (length tokens) - 1) index escape st =
  let o := spec_escape_rule escape (skipn (S index) tokens) in
  Ok (mkParse (if consumes_next o then S (S index) else S index)
        (parts st ++ emitted o)
        (if sets_has_escapes o then set_has_escapes (p_self st) true else p_self st)).
Proof. exact (parse_body_escape d tokens index escape st). Qed.

Lemma escape_adjacency_cases_witness :
  let tokens := [(lit "\", LT_ESCAPE); (lit "\", LT_ESCAPE); (lit "x", LT_LITERAL)] in
  let self := mkRefValue None (lit "\\x") (lit ".") false tokens [] in
  parse_body spec_defaults tokens 2 0 (lit "\", LT_ESCAPE) (mkParse 1 [] self) =
  Ok (mkParse 2 [mkPart PT_LITERAL (lit "\"); mkPart PT_LITERAL (lit "\")] self).
Proof.
  intros tokens self.
  exact (escape_adjacency_cases spec_defaults tokens 0 (lit "\", LT_ESCAPE)
           (mkParse 1 [] self) eq_refl eq_refl eq_refl).
Defined.

Lemma skipn_nth (A : Type) (l : list A) (n : nat) (x : A) :
  nth_error l n = Some x -> skipn n l = x :: skipn (S n) l.
Proof.
  revert l. induction n as [|n IH]; intros [|y l] H; try discriminate.
  - cbn in H. injection H as ->. reflexivity.
  - cbn in H. rewrite !skipn_cons. now apply IH.
Qed.

(** Inside an interpolation an escape token followed by an end marker is
    added to the name and the end marker ends the scan, whatever the tokens. *)
Lemma interpolation_escape_then_end (d : defaults) (tokens : list token) (fuel it : nat)
    (ps : list str) (escape stop : token) :
  nth_error tokens it = Some escape -> TT_TAG escape = LT_ESCAPE ->
  nth_error tokens (S it) = Some stop -> TT_TAG stop = LT_INTRPL_END ->
  interpolation_while (S (S fuel)) d tokens it ps = Ok (ps ++ [TT_TEXT escape], S (S it)).
Proof.
  intros H1 T1 H2 T2.
  rewrite interpolation_while_unfold, H1, T1. cbn [lt_eqb]. rewrite H2.
  rewrite interpolation_while_unfold, H2, T2. reflexivity.
Qed.

(** Inside an interpolation an escape token that is the last token raises
    [IndexError]. *)
Lemma interpolation_escape_at_end (d : defaults) (tokens : list token) (fuel it : nat)
    (ps : list str) (escape : token) :
  nth_error tokens it = Some escape -> TT_TAG escape = LT_ESCAPE ->
  nth_error tokens (S it) = None ->
  interpolation_while (S fuel) d tokens it ps = Raise IndexError.
Proof.
  intros H1 T1 H2. rewrite interpolation_while_unfold, H1, T1. cbn [lt_eqb]. now rewrite H2.
Qed.

(** A scan that meets neither an end marker nor an escape up to the last
    token raises the incomplete-interpolation error with the name so far. *)
Lemma interpolation_runs_out (d : defaults) (tokens : list token) (fuel : nat) :
  forall (it : nat) (ps : list str),
  Forall (fun t => TT_TAG t <> LT_INTRPL_END /\ TT_TAG t <> LT_ESCAPE) (skipn it tokens) ->
  length tokens - it < fuel ->
  interpolation_while fuel d tokens it ps =
  Raise (IncompleteInterpolationError (concat (ps ++ map TT_TEXT (skipn it tokens)))
           (snd (PARAMETER_INTERPOLATION_SENTINELS d))).
Proof.
  induction fuel as [|fuel IH]; intros it ps Hall Hlt; [lia|].
  rewrite interpolation_while_unfold.
  destruct (nth_error tokens it) as [token|] eqn:Hn.
  - pose proof (nth_error_lt _ _ _ _ Hn) as Hit.
    pose proof (skipn_nth _ _ _ _ Hn) as Hskip.
    rewrite Hskip in Hall. apply Forall_cons_iff in Hall. destruct Hall as [[Hne1 Hne2] Hrest].
    rewrite Hskip.
    destruct (TT_TAG token) eqn:Ht; try congruence; cbn [lt_eqb];
      rewrite (IH (S it) _ Hrest) by lia; cbn [map]; now rewrite <- app_assoc.
  - apply nth_error_None in Hn. rewrite skipn_all2 by exact Hn. cbn [map].
    now rewrite app_nil_r.
Qed.

(** C1: inside an interpolation an escape token followed by an end marker
    does not keep the scan going: for the source [${a\}b}] the escape
    character is added to the name and the end marker after it ends the
    reference, so the name is [a\] and [b}] is literal text. *)
Theorem escaped_end_marker_ends_reference :
  let tokens := [(lit "${", LT_INTRPL_START); (lit "a", LT_LITERAL); (lit "\", LT_ESCAPE);
                 (lit "}", LT_INTRPL_END); (lit "b", LT_LITERAL); (lit "}", LT_INTRPL_END)] in
  _lex spec_defaults (lit "${a\}b}") = Ok tokens
  /\ _parse_interpolation spec_defaults 1 tokens = Ok (lit "a\", 4)
  /\ exists rv,
       new_RefValue spec_defaults (lit "${a\}b}") = Ok rv
       /\ _parts rv = [mkPart PT_REFERENCE (lit "a\"); mkPart PT_LITERAL (lit "b");
                       mkPart PT_LITERAL (lit "}")].
Proof.
  cbv zeta. split; [vm_compute; reflexivity|]. split; [vm_compute; reflexivity|].
  eexists. split; vm_compute; reflexivity.
Qed.

(** C2: a source whose unterminated interpolation ends in an escape
    character does not raise the incomplete-interpolation error:
    constructing [${a\] raises [IndexError]. *)
Theorem unterminated_escape_raises_index_error :
  new_RefValue spec_defaults (lit "${a\") = Raise IndexError.
Proof. vm_compute. reflexivity. Qed.

(** Without an escape at the end, the unterminated interpolation raises the
    error with the partial name and the end sentinel. *)
Example unterminated_reference_raises_incomplete :
  new_RefValue spec_defaults (lit "${unterminated")
  = Raise (IncompleteInterpolationError (lit "unterminated") (lit "}")).
Proof. vm_compute. reflexivity. Qed.

Lemma token_ok_nonempty (d : defaults) (t : token) :
  markers_nonempty d = true -> token_ok d t -> TT_TEXT t <> [].
Proof.
  intros Hd Ht. unfold markers_nonempty in Hd.
  apply andb_prop in Hd. destruct Hd as [Hd H3]. apply andb_prop in Hd. destruct Hd as [H1 H2].
  unfold token_ok in Ht. destruct (TT_TAG t); cbn in Ht; try exact Ht;
    rewrite Ht; intros E; rewrite E in *; discriminate.
Qed.

Lemma concat_nonempty (body : list token) :
  body <> [] -> Forall (fun t => TT_TEXT t <> []) body -> concat (map TT_TEXT body) <> [].
Proof.
  destruct body as [|t body]; [congruence|]. intros _ H. inversion H; subst.
  cbn. destruct (TT_TEXT t); [congruence|discriminate].
Qed.

(** Every reference a parse gives has a name of at least one character. *)
Lemma parse_shape_names (d : defaults) (toks : list token) (ps : list part) (h : bool) :
  markers_nonempty d = true -> Forall (token_ok d) toks ->
  parse_shape toks ps h ->
  Forall (fun name => name <> []) (map data (filter is_reference ps)).
Proof.
  intros Hd Hok Hs. induction Hs as [|toks1 ps1 h1 toks2 ps2 h2 Hs IH Hstep]; [constructor|].
  apply Forall_app in Hok. destruct Hok as [Hok1 Hok2].
  rewrite filter_app, map_app. apply Forall_app. split; [now apply IH|].
  destruct Hstep as [toks|escape t|start body stop Hstart Hstop Hne].
  - induction toks as [|t toks IHt]; [constructor|]. cbn.
    apply IHt. now inversion Hok2.
  - constructor.
  - cbn. constructor; [|constructor]. apply concat_nonempty; [exact Hne|].
    inversion Hok2 as [|? ? _ Hrest]; subst.
    apply Forall_app in Hrest. destruct Hrest as [Hbody _].
    eapply Forall_impl; [|exact Hbody]. intros t. now apply token_ok_nonempty.
Qed.

(** At a start marker with an end marker right after it, the iteration
    raises the interpolation error. *)
Lemma parse_body_empty_reference (d : defaults) (tokens : list token) (index : nat)
    (start stop : token) (ps : list part) (self : RefValue) :
  TT_TAG start = LT_INTRPL_START ->
  nth_error tokens (S index) = Some stop -> TT_TAG stop = LT_INTRPL_END ->
  parse_body d tokens (Z.of_nat (length tokens) - 1) index start (mkParse (S index) ps self)
  = Raise (InterpolationError empty_name_msg).
Proof.
  intros Hstart Hn Hstop. unfold parse_body. rewrite Hstart. cbn [lt_eqb token_iterator].
  unfold _parse_interpolation. rewrite interpolation_while_unfold, Hn, Hstop. reflexivity.
Qed.

(** C6: when the parser of a source string comes to a start marker with an
    end marker right after it, so that the name between them is empty,
    construction raises the interpolation error; and with non-empty markers
    no object that is constructed has a reference with an empty name. *)
Theorem empty_reference_is_rejected (d : defaults) (s delim : str) :
  (forall toks st start stop,
     _lex d s = Ok toks ->
     parse_reaches d toks (init_self s delim toks) st ->
     nth_error toks (token_iterator st) = Some start -> TT_TAG start = LT_INTRPL_START ->
     nth_error toks (S (token_iterator st)) = Some stop -> TT_TAG stop = LT_INTRPL_END ->
     __init__ d s delim = Raise (InterpolationError empty_name_msg))
  /\ (markers_nonempty d = true ->
      forall rv, __init__ d s delim = Ok rv ->
                 Forall (fun name => name <> []) (fst (get_references rv))).
Proof.
  split.
  - intros toks st start stop Hl Hr Hn1 Ht1 Hn2 Ht2.
    destruct (parse_for_resume _ _ _ _ Hr) as (k & Hk & Hfuel).
    pose proof (nth_error_lt _ _ _ _ Hn1) as Hlt.
    unfold __init__. rewrite Hl. cbn [bind].
    change (set_tokens (mkRefValue None s delim false [] []) toks) with (init_self s delim toks).
    change (_tokens (init_self s delim toks)) with toks.
    unfold _parse.
    replace (length toks) with (k + S (length toks - k - 1)) at 1 by lia.
    rewrite Hfuel, parse_for_unfold, (next_at _ _ _ Hn1).
    now rewrite (parse_body_empty_reference d toks _ start stop _ _ Ht1 Hn2 Ht2).
  - intros Hd rv H. destruct (init_ok _ _ _ _ H) as (toks & h & Hl & Hs & E).
    destruct (lex_lossless _ _ _ Hl) as [_ Hok].
    rewrite E. cbn [get_references _refs fst].
    exact (parse_shape_names d toks _ h Hd Hok Hs).
Qed.

Lemma empty_reference_is_rejected_witness :
  __init__ spec_defaults (lit "x${}") (lit ".") = Raise (InterpolationError empty_name_msg)
  /\ forall rv, __init__ spec_defaults (lit "${a}${b}") (lit ".") = Ok rv ->
                Forall (fun name => name <> []) (fst (get_references rv)).
Proof.
  split.
  - refine (proj1 (empty_reference_is_rejected spec_defaults (lit "x${}") (lit "."))
              [(lit "x", LT_LITERAL); (lit "${", LT_INTRPL_START); (lit "}", LT_INTRPL_END)]
              _ (lit "${", LT_INTRPL_START) (lit "}", LT_INTRPL_END) _ _ _ eq_refl _ eq_refl).
    + vm_compute. reflexivity.
    + eapply reaches_step; [apply reaches_start| |]; vm_compute; reflexivity.
    + reflexivity.
    + reflexivity.
  - exact (proj2 (empty_reference_is_rejected spec_defaults (lit "${a}${b}") (lit ".")) eq_refl).
Defined.

(** ** Main results on rendering *)

Lemma escape_erasure_refl (toks : list token) : escape_erasure toks toks.
Proof. induction toks; constructor; assumption. Qed.

Lemma escape_erasure_app (toks1 kept1 toks2 kept2 : list token) :
  escape_erasure toks1 kept1 -> escape_erasure toks2 kept2 ->
  escape_erasure (toks1 ++ toks2) (kept1 ++ kept2).
Proof.
  intros H1 H2. induction H1; cbn; [assumption| |]; constructor; assumption.
Qed.

Lemma redisplay_app (d : defaults) (ps1 ps2 : list part) :
  redisplay d (ps1 ++ ps2) = redisplay d ps1 ++ redisplay d ps2.
Proof. unfold redisplay. now rewrite map_app, concat_app. Qed.

Lemma redisplay_literals (d : defaults) (toks : list token) :
  redisplay d (map (fun t => mkPart PT_LITERAL (TT_TEXT t)) toks) = concat (map TT_TEXT toks).
Proof.
  unfold redisplay. induction toks as [|t toks IH]; [reflexivity|]. cbn. now rewrite IH.
Qed.

(** The parts written back are the tokens without some escape tokens, and
    all the tokens unless an escape was dropped. *)
Lemma parse_shape_redisplay (d : defaults) (toks : list token) (ps : list part) (h : bool) :
  Forall (token_ok d) toks -> parse_shape toks ps h ->
  (exists kept, escape_erasure toks kept /\ concat (map TT_TEXT kept) = redisplay d ps)
  /\ (h = false -> redisplay d ps = concat (map TT_TEXT toks))
  /\ (h = true -> exists t, In t toks /\ TT_TAG t = LT_ESCAPE).
Proof.
  intros Hok Hs. induction Hs as [|toks1 ps1 h1 toks2 ps2 h2 Hs IH Hstep].
  - repeat split; try discriminate. exists []. split; [constructor|reflexivity].
  - apply Forall_app in Hok. destruct Hok as [Hok1 Hok2].
    destruct (IH Hok1) as ((kept1 & He1 & Hc1) & Hf1 & Ht1).
    assert (H2 : (exists kept, escape_erasure toks2 kept
                               /\ concat (map TT_TEXT kept) = redisplay d ps2)
                 /\ (h2 = false -> redisplay d ps2 = concat (map TT_TEXT toks2))
                 /\ (h2 = true -> exists t, In t toks2 /\ TT_TAG t = LT_ESCAPE)).
    { destruct Hstep as [toks|escape t Hesc|start body stop Hstart Hstop Hne].
      - rewrite redisplay_literals. repeat split; try discriminate.
        exists toks. split; [apply escape_erasure_refl|reflexivity].
      - repeat split; try discriminate.
        + exists [t]. split; [|reflexivity].
          apply erasure_drop; [exact Hesc|]. apply escape_erasure_refl.
        + intros _. exists escape. split; [now left|exact Hesc].
      - assert (E : redisplay d [mkPart PT_REFERENCE (concat (map TT_TEXT body))]
                    = concat (map TT_TEXT (start :: body ++ [stop]))).
        { inversion Hok2 as [|? ? Hs1 Hrest]; subst.
          apply Forall_app in Hrest. destruct Hrest as [_ Hs2].
          inversion Hs2 as [|? ? Hs3 _]; subst.
          unfold token_ok in Hs1, Hs3. rewrite Hstart in Hs1. rewrite Hstop in Hs3.
          cbn in Hs1, Hs3. unfold redisplay, redisplay_part. cbn [map concat ptype data].
          rewrite app_nil_r, map_app, concat_app, Hs1. cbn [map concat].
          now rewrite app_nil_r, Hs3. }
        repeat split; try discriminate; [|intros _; exact E].
        exists (start :: body ++ [stop]). split; [apply escape_erasure_refl|now rewrite E]. }
    destruct H2 as ((kept2 & He2 & Hc2) & Hf2 & Ht2).
    repeat split.
    + exists (kept1 ++ kept2). split; [now apply escape_erasure_app|].
      now rewrite map_app, concat_app, redisplay_app, Hc1, Hc2.
    + intros Hh. apply orb_false_elim in Hh. destruct Hh as [-> ->].
      now rewrite map_app, concat_app, redisplay_app, Hf1, Hf2.
    + intros Hh. apply orb_prop in Hh. destruct Hh as [Hh|Hh].
      * destruct (Ht1 Hh) as (t & Hin & Ht). exists t. split; [|exact Ht].
        apply in_or_app. now left.
      * destruct (Ht2 Hh) as (t & Hin & Ht). exists t. split; [|exact Ht].
        apply in_or_app. now right.
Qed.

Section RenderResults.

Variable value : Type.
Variable VStr : str -> value.
Variable py_str : value -> builtin_result.
Variable context : Type.
Variable dictpath_get_value : str -> str -> context -> option value.

Local Abbreviation render_ := (render value VStr py_str context dictpath_get_value).
Local Abbreviation resolve_ := (_resolve value context dictpath_get_value).

(** C3: when the parts of a constructed object are one reference and
    nothing else, [render] gives what the lookup of its name gives, as the
    value it is (or the undefined-variable error of that name); and a value
    that [render] returns on any other object is a string. *)
Theorem single_reference_keeps_type (d : defaults) (s delim : str) (rv : RefValue)
    (ctx : context) :
  __init__ d s delim = Ok rv ->
  (forall name, _parts rv = [mkPart PT_REFERENCE name] ->
     fst (render_ rv ctx) =
     match dictpath_get_value delim name ctx with
     | Some v => Ok v
     | None => Raise (UndefinedVariableError name)
     end)
  /\ (forall v, fst (render_ rv ctx) = Ok v ->
        (exists name, _parts rv = [mkPart PT_REFERENCE name])
        \/ exists text, v = VStr text).
Proof.
  intros H. destruct (init_refs _ _ _ _ H) as (_ & _ & Hdelim).
  destruct (render_constructed value VStr py_str context dictpath_get_value d s delim rv ctx H)
    as [_ [(Hrefs & _ & Hr)|[(name & Hp & Hr)|(Hp & Hr)]]].
  - split.
    + intros name Hp. rewrite Hp in Hrefs. discriminate.
    + intros v Hv. rewrite Hr in Hv. injection Hv as <-. right. eauto.
  - split.
    + intros name' Hp'. rewrite Hp in Hp'. injection Hp' as <-.
      rewrite Hr. unfold _resolve. now rewrite Hdelim.
    + intros v _. left. eauto.
  - split.
    + intros name Hp'. now apply Hp in Hp'.
    + intros v Hv. rewrite Hr in Hv. right.
      destruct (assemble_for value py_str (_parts rv) (fun s0 => resolve_ rv s0 ctx) [])
        as [text| |]; cbn [bind] in Hv; try discriminate.
      injection Hv as <-. eauto.
Qed.

(** C4: on a constructed object without reference parts and with
    [_has_escapes] false, [render] returns the source string, whatever the
    context; and a string in which neither the escape character nor a
    sentinel occurs is constructed and rendered to itself. *)
Theorem plain_string_renders_unchanged (d : defaults) (s delim : str) :
  (forall rv ctx,
     __init__ d s delim = Ok rv ->
     filter is_reference (_parts rv) = [] -> has_escapes rv = false ->
     render_ rv ctx = (Ok (VStr s), rv))
  /\ (contains (ESCAPE_CHARACTER d) s = false ->
      contains (fst (PARAMETER_INTERPOLATION_SENTINELS d)) s = false ->
      contains (snd (PARAMETER_INTERPOLATION_SENTINELS d)) s = false ->
      exists rv, __init__ d s delim = Ok rv
                 /\ forall ctx, render_ rv ctx = (Ok (VStr s), rv)).
Proof.
  assert (Hfirst : forall rv ctx,
            __init__ d s delim = Ok rv ->
            filter is_reference (_parts rv) = [] -> has_escapes rv = false ->
            render_ rv ctx = (Ok (VStr s), rv)).
  { intros rv ctx H Hf He. destruct (init_refs _ _ _ _ H) as (Hrefs & Hs & _).
    unfold render. rewrite (assemble_stored value VStr py_str _ _ Hrefs). cbv zeta.
    unfold has_escapes in He. rewrite Hf, He, Hs. reflexivity. }
  split; [exact Hfirst|].
  intros H1 H2 H3. pose proof (lex_plain d s H1 H2 H3) as Hl.
  assert (Hinit : exists rv, __init__ d s delim = Ok rv
                             /\ filter is_reference (_parts rv) = []
                             /\ has_escapes rv = false).
  { unfold __init__. rewrite Hl. destruct s as [|c s']; eexists; cbn; auto. }
  destruct Hinit as (rv & Hinit & Hf & He).
  exists rv. split; [exact Hinit|]. intros ctx. now apply Hfirst.
Qed.

(** C7, amended: construction never raises the undefined-variable error.
    What [render] raises on a constructed object is the undefined-variable
    error of a reference the lookup does not find, carrying its whole name,
    or what [str()] raised on the value of a reference.  With a reference
    the lookup does not find [render] raises, and it raises the
    undefined-variable error of the first such reference when [str()]
    returns on the values of the references before it.  So, in a context
    where [str()] returns on the value of every reference, [render] raises
    the undefined-variable error exactly when the lookup does not find some
    reference, and raises nothing else. *)
Theorem undefined_variable_at_render (d : defaults) (s delim : str) :
  (forall name, __init__ d s delim <> Raise (UndefinedVariableError name))
  /\ forall rv ctx,
       __init__ d s delim = Ok rv ->
       let refs := fst (get_references rv) in
       (forall e, fst (render_ rv ctx) = Raise e ->
          (exists name, e = UndefinedVariableError name /\ In name refs
                        /\ dictpath_get_value delim name ctx = None)
          \/ (exists name v class_name,
                In name refs /\ dictpath_get_value delim name ctx = Some v
                /\ py_str v = Throws class_name /\ e = BuiltinError class_name))
       /\ (forall name, In name refs -> dictpath_get_value delim name ctx = None ->
             exists e, fst (render_ rv ctx) = Raise e)
       /\ (forall before name after,
             refs = before ++ name :: after ->
             Forall (fun n => exists v text, dictpath_get_value delim n ctx = Some v
                                             /\ py_str v = Returns text) before ->
             dictpath_get_value delim name ctx = None ->
             fst (render_ rv ctx) = Raise (UndefinedVariableError name))
       /\ ((forall name v, In name refs -> dictpath_get_value delim name ctx = Some v ->
                           exists text, py_str v = Returns text) ->
           ((exists name, fst (render_ rv ctx) = Raise (UndefinedVariableError name))
            <-> (exists name, In name refs /\ dictpath_get_value delim name ctx = None))
           /\ (forall e, fst (render_ rv ctx) = Raise e ->
                 exists name, e = UndefinedVariableError name /\ In name refs
                              /\ dictpath_get_value delim name ctx = None)).
Proof.
  split.
  - intros name H. apply init_raise in H.
    destruct H as [H|[[n H]|H]]; discriminate.
  - intros rv ctx H. destruct (init_refs _ _ _ _ H) as (Hrefs & _ & Hdelim).
    rewrite (get_references_stored _ _ Hrefs). cbn [fst]. cbv zeta.
    assert (A1 : forall e, fst (render_ rv ctx) = Raise e ->
              (exists name, e = UndefinedVariableError name
                            /\ In name (map data (filter is_reference (_parts rv)))
                            /\ dictpath_get_value delim name ctx = None)
              \/ (exists name v class_name,
                    In name (map data (filter is_reference (_parts rv)))
                    /\ dictpath_get_value delim name ctx = Some v
                    /\ py_str v = Throws class_name /\ e = BuiltinError class_name)).
    { intros e He.
      destruct (render_constructed value VStr py_str context dictpath_get_value d s delim rv ctx H)
        as [_ [(_ & _ & Hr)|[(name & Hp & Hr)|(_ & Hr)]]]; rewrite Hr in He.
      - discriminate.
      - unfold _resolve in He. rewrite Hdelim in He.
        destruct (dictpath_get_value delim name ctx) eqn:E; [discriminate|].
        injection He as <-. left. exists name. rewrite Hp. cbn. auto.
      - destruct (assemble_for value py_str (_parts rv) (fun s0 => resolve_ rv s0 ctx) [])
          as [text|e'|] eqn:Ha; cbn [bind] in He; try discriminate.
        injection He as <-. rewrite <- Hdelim.
        destruct (assemble_for_raise value py_str context dictpath_get_value rv ctx _ _ _ Ha)
          as [(n & Hin & He & Hn)|Hs]; [left; eauto|right; exact Hs]. }
    assert (A2 : forall name, In name (map data (filter is_reference (_parts rv))) ->
              dictpath_get_value delim name ctx = None ->
              exists e, fst (render_ rv ctx) = Raise e).
    { intros name Hin Hn.
      destruct (render_constructed value VStr py_str context dictpath_get_value d s delim rv ctx H)
        as [_ [(Hr0 & _ & _)|[(name' & Hp & Hr)|(_ & Hr)]]].
      - rewrite Hr0 in Hin. destruct Hin.
      - rewrite Hp in Hin. cbn in Hin. destruct Hin as [<-|[]].
        rewrite Hr. unfold _resolve. rewrite Hdelim, Hn. eauto.
      - rewrite Hr. rewrite <- Hdelim in Hn.
        destruct (assemble_for_absent value py_str context dictpath_get_value rv ctx name _ Hin Hn [])
          as [e He].
        rewrite He. cbn [bind]. eauto. }
    assert (A3 : forall before name after,
              map data (filter is_reference (_parts rv)) = before ++ name :: after ->
              Forall (fun n => exists v text, dictpath_get_value delim n ctx = Some v
                                              /\ py_str v = Returns text) before ->
              dictpath_get_value delim name ctx = None ->
              fst (render_ rv ctx) = Raise (UndefinedVariableError name)).
    { intros before name after Hl Hb Hn.
      destruct (render_constructed value VStr py_str context dictpath_get_value d s delim rv ctx H)
        as [_ [(Hr0 & _ & _)|[(name' & Hp & Hr)|(_ & Hr)]]].
      - rewrite Hr0 in Hl. destruct before; discriminate.
      - rewrite Hp in Hl. cbn in Hl.
        destruct before as [|b before]; [|destruct before; discriminate].
        cbn in Hl. injection Hl as -> _.
        rewrite Hr. unfold _resolve. now rewrite Hdelim, Hn.
      - rewrite Hr. rewrite <- Hdelim in Hb, Hn.
        now rewrite (assemble_for_first_absent value py_str context dictpath_get_value
                       rv ctx name after _ before [] Hl Hb Hn). }
    split; [exact A1|]. split; [exact A2|]. split; [exact A3|].
    intros Hstr.
    assert (A4 : forall e, fst (render_ rv ctx) = Raise e ->
              exists name, e = UndefinedVariableError name
                           /\ In name (map data (filter is_reference (_parts rv)))
                           /\ dictpath_get_value delim name ctx = None).
    { intros e He. destruct (A1 e He) as [Hu|(name & v & c & Hin & Hv & Hs & _)];
        [exact Hu|].
      destruct (Hstr name v Hin Hv) as [text Ht]. congruence. }
    split; [|exact A4]. split.
    + intros [name He]. destruct (A4 _ He) as (name' & _ & Hin & Hn). eauto.
    + intros (name & Hin & Hn).
      destruct (List.find (fun n => match dictpath_get_value delim n ctx with
                                    | None => true | Some _ => false end)
                  (map data (filter is_reference (_parts rv)))) as [first|] eqn:Ef.
      * destruct (find_first _ _ _ _ Ef) as (before & after & Hl & Hb & Hx).
        exists first. apply (A3 before first after Hl).
        -- apply Forall_forall. intros n Hnb. rewrite Forall_forall in Hb.
           specialize (Hb n Hnb). cbn beta in Hb.
           destruct (dictpath_get_value delim n ctx) as [v|] eqn:Ev; [|discriminate].
           assert (Hin' : In n (map data (filter is_reference (_parts rv))))
             by (rewrite Hl; apply in_or_app; now left).
           destruct (Hstr n v Hin' Ev) as [text Ht]. eauto.
        -- destruct (dictpath_get_value delim first ctx); [discriminate|reflexivity].
      * exfalso. pose proof (find_none _ _ Ef name Hin) as Hx. cbn beta in Hx.
        rewrite Hn in Hx. discriminate.
Qed.

(** C8: on a constructed object [get_references] returns the names of the
    reference parts in the order of the parts, one for each part, and
    leaves the object as it is, as do [has_references] and [render]: every
    later call returns the same list.  The order of the parts is the order
    of the source: written back one after the other they spell the source
    without some of its escape tokens. *)
Theorem references_in_order_and_stable (d : defaults) (s delim : str) (rv : RefValue) :
  __init__ d s delim = Ok rv ->
  get_references rv = (map data (filter is_reference (_parts rv)), rv)
  /\ snd (has_references rv) = rv
  /\ (forall ctx, snd (render_ rv ctx) = rv)
  /\ (forall ctx, get_references (snd (render_ rv ctx)) = get_references rv)
  /\ (exists toks kept,
        _lex d s = Ok toks /\ escape_erasure toks kept
        /\ concat (map TT_TEXT kept) = redisplay d (_parts rv)).
Proof.
  intros H. destruct (init_refs _ _ _ _ H) as (Hrefs & _ & _).
  assert (Hr : forall ctx, snd (render_ rv ctx) = rv).
  { intros ctx.
    exact (proj1 (render_constructed value VStr py_str context dictpath_get_value
                    d s delim rv ctx H)). }
  repeat split.
  - exact (get_references_stored _ _ Hrefs).
  - now rewrite (has_references_stored _ _ Hrefs).
  - exact Hr.
  - intros ctx. now rewrite Hr.
  - destruct (init_ok _ _ _ _ H) as (toks & h & Hl & Hshape & _).
    destruct (lex_lossless _ _ _ Hl) as [_ Hok].
    destruct (parse_shape_redisplay d toks _ h Hok Hshape) as ((kept & Hker & Hkc) & _ & _).
    exists toks, kept. auto.
Qed.

Hypothesis py_str_VStr : forall s, py_str (VStr s) = Returns s.

Lemma assemble_for_redisplay (d : defaults) (ps : list part) :
  forall ret,
  assemble_for value py_str ps
    (fun s => Ok (VStr (str_join s [fst (PARAMETER_INTERPOLATION_SENTINELS d);
                                    snd (PARAMETER_INTERPOLATION_SENTINELS d)]))) ret
  = Ok (ret ++ redisplay d ps).
Proof.
  induction ps as [|[[|] name] ps IH]; intros ret; cbn [assemble_for ptype data bind].
  - unfold redisplay. cbn. now rewrite app_nil_r.
  - rewrite IH. unfold redisplay. cbn. now rewrite <- app_assoc.
  - rewrite py_str_VStr. cbn [builtin_call bind]. rewrite IH.
    unfold redisplay, redisplay_part. cbn. now rewrite <- !app_assoc.
Qed.

(** C9: the assembly that re-wraps the references of a constructed object
    gives, without any context, the literal texts and the re-wrapped
    reference names one after the other; this string is the source with
    some of its escape tokens left out, and it is the source itself when
    [_has_escapes] is false, and so for every source in which the escape
    character does not occur. *)
Theorem redisplay_reproduces_source (d : defaults) (s delim : str) (rv : RefValue) :
  __init__ d s delim = Ok rv ->
  repr_assemble value VStr py_str d rv = (Ok (VStr (redisplay d (_parts rv))), rv)
  /\ (exists toks kept,
        _lex d s = Ok toks /\ escape_erasure toks kept
        /\ concat (map TT_TEXT kept) = redisplay d (_parts rv))
  /\ (has_escapes rv = false -> redisplay d (_parts rv) = s)
  /\ (contains (ESCAPE_CHARACTER d) s = false -> redisplay d (_parts rv) = s).
Proof.
  intros H. destruct (init_refs _ _ _ _ H) as (Hrefs & Hs & _).
  destruct (init_ok _ _ _ _ H) as (toks & h & Hl & Hshape & E).
  destruct (lex_lossless _ _ _ Hl) as [Hcat Hok].
  destruct (parse_shape_redisplay d toks _ h Hok Hshape) as ((kept & Hker & Hkc) & Hfalse & Htrue).
  assert (Hh : _has_escapes rv = h) by (rewrite E; reflexivity).
  assert (Hsame : h = false -> redisplay d (_parts rv) = s)
    by (intros Hf; now rewrite (Hfalse Hf), Hcat).
  assert (Hno : contains (ESCAPE_CHARACTER d) s = false -> h = false).
  { intros Hc. destruct h; [|reflexivity].
    destruct (Htrue eq_refl) as (t & Hin & Ht).
    pose proof (lex_marker_occurs _ _ _ Hl) as Hocc.
    rewrite Forall_forall in Hocc. specialize (Hocc t Hin (ESCAPE_CHARACTER d)).
    rewrite Ht in Hocc. rewrite (Hocc eq_refl) in Hc. discriminate. }
  split; [|split; [|split]].
  - unfold repr_assemble. rewrite (assemble_stored value VStr py_str _ _ Hrefs). cbv zeta.
    destruct (negb (0 <? length (map data (filter is_reference (_parts rv))))
              && negb (_has_escapes rv)) eqn:E1.
    + apply andb_prop in E1. destruct E1 as [_ E1]. apply negb_true_iff in E1.
      rewrite Hs, Hsame; [reflexivity|congruence].
    + destruct ((length (_parts rv) =? 1)
                && (0 <? length (map data (filter is_reference (_parts rv))))) eqn:E2.
      * apply andb_prop in E2. destruct E2 as [E2 E3].
        apply Nat.eqb_eq in E2. apply Nat.ltb_lt in E3.
        destruct (single_reference _ E2 E3) as [name ->].
        cbn. unfold redisplay, redisplay_part. cbn. now rewrite app_nil_r.
      * now rewrite assemble_for_redisplay.
  - exists toks, kept. auto.
  - unfold has_escapes. intros Hf. apply Hsame. congruence.
  - intros Hc. apply Hsame. now apply Hno.
Qed.

End RenderResults.

(** ** The results on rendering at example inputs *)

Lemma single_reference_keeps_type_witness :
  exists rv,
    __init__ spec_defaults (lit "${answer}") (lit ".") = Ok rv
    /\ fst (render example_value EStr example_str example_context example_get_value
              rv example_ctx) = Ok (EInt 42).
Proof.
  eexists. split; [vm_compute; reflexivity|].
  match goal with
  | |- fst (render _ _ _ _ _ ?rv _) = _ =>
      assert (H : __init__ spec_defaults (lit "${answer}") (lit ".") = Ok rv)
        by (vm_compute; reflexivity);
      exact (proj1 (single_reference_keeps_type example_value EStr example_str
                      example_context example_get_value spec_defaults
                      (lit "${answer}") (lit ".") rv example_ctx H)
               (lit "answer") eq_refl)
  end.
Defined.

Lemma plain_string_renders_unchanged_witness :
  exists rv,
    __init__ spec_defaults (lit "plain text.") (lit ".") = Ok rv
    /\ forall ctx,
         render example_value EStr example_str example_context example_get_value rv ctx
         = (Ok (EStr (lit "plain text.")), rv).
Proof.
  exact (proj2 (plain_string_renders_unchanged example_value EStr example_str example_context
                  example_get_value spec_defaults (lit "plain text.") (lit "."))
           eq_refl eq_refl eq_refl).
Defined.

Lemma undefined_variable_at_render_witness :
  exists rv,
    __init__ spec_defaults (lit "${answer} ${missing}") (lit ".") = Ok rv
    /\ fst (render example_value EStr example_str example_context example_get_value
              rv example_ctx) = Raise (UndefinedVariableError (lit "missing")).
Proof.
  eexists. split; [vm_compute; reflexivity|].
  match goal with
  | |- fst (render _ _ _ _ _ ?rv _) = _ =>
      assert (H : __init__ spec_defaults (lit "${answer} ${missing}") (lit ".") = Ok rv)
        by (vm_compute; reflexivity);
      apply (proj1 (proj2 (proj2 (proj2 (undefined_variable_at_render example_value EStr
                                           example_str example_context example_get_value
                                           spec_defaults (lit "${answer} ${missing}") (lit "."))
                                    rv example_ctx H)))
               [lit "answer"] (lit "missing") [])
  end.
  - reflexivity.
  - constructor; [|constructor]. exists (EInt 42), (lit "42"). split; reflexivity.
  - reflexivity.
Defined.

(** C7 as it was stated fails where [str()] raises before the lookup comes
    to the missing reference: for [x ${a} ${b}] and the context
    [{'a': u'\xe9'}] the lookup does not find [b], and [render] raises the
    [UnicodeEncodeError] of [str()] on the value of [a], not the
    undefined-variable error. *)
Lemma undefined_variable_iff_counterexample :
  exists rv,
    __init__ spec_defaults (lit "x ${a} ${b}") (lit ".") = Ok rv
    /\ fst (render text_value TStr text_str (list (str * text_value)) text_get_value
              rv text_ctx) = Raise (BuiltinError (lit "UnicodeEncodeError"))
    /\ ~ ((exists name,
             fst (render text_value TStr text_str (list (str * text_value)) text_get_value
                    rv text_ctx) = Raise (UndefinedVariableError name))
          <-> (exists name, In name (fst (get_references rv))
                            /\ text_get_value (lit ".") name text_ctx = None)).
Proof.
  eexists. split; [vm_compute; reflexivity|]. split; [vm_compute; reflexivity|].
  intros [_ Hif].
  destruct Hif as [name Hn].
  - exists (lit "b"). split; [right; left; reflexivity|reflexivity].
  - vm_compute in Hn. discriminate Hn.
Qed.

Lemma references_in_order_and_stable_witness :
  exists rv,
    __init__ spec_defaults (lit "${a}, ${b} and ${a}") (lit ".") = Ok rv
    /\ get_references rv = ([lit "a"; lit "b"; lit "a"], rv).
Proof.
  eexists. split; [vm_compute; reflexivity|].
  match goal with
  | |- get_references ?rv = _ =>
      assert (H : __init__ spec_defaults (lit "${a}, ${b} and ${a}") (lit ".") = Ok rv)
        by (vm_compute; reflexivity);
      exact (proj1 (references_in_order_and_stable example_value EStr example_str
                      example_context example_get_value spec_defaults
                      (lit "${a}, ${b} and ${a}") (lit ".") rv H))
  end.
Defined.

Lemma redisplay_reproduces_source_witness :
  (forall s, example_str (EStr s) = Returns s) /\
  exists rv,
    __init__ spec_defaults (lit "\${a} is ${b}") (lit ".") = Ok rv
    /\ repr_assemble example_value EStr example_str spec_defaults rv
       = (Ok (EStr (lit "${a} is ${b}")), rv).
Proof.
  split; [reflexivity|].
  eexists. split; [vm_compute; reflexivity|].
  match goal with
  | |- repr_assemble _ _ _ _ ?rv = _ =>
      assert (H : __init__ spec_defaults (lit "\${a} is ${b}") (lit ".") = Ok rv)
        by (vm_compute; reflexivity);
      exact (proj1 (redisplay_reproduces_source example_value EStr example_str
                      (fun s => eq_refl) spec_defaults (lit "\${a} is ${b}") (lit ".") rv H))
  end.
Defined.

(** The scenarios of the specification, with [.] as delimiter. *)
Example scenario_string :
  option_map (fun rv => fst (render example_value EStr example_str example_context
                               example_get_value rv example_ctx))
    (match new_RefValue spec_defaults (lit "My favourite colour is ${favcolour}") with
     | Ok rv => Some rv | _ => None end)
  = Some (Ok (EStr (lit "My favourite colour is yellow"))).
Proof. vm_compute. reflexivity. Qed.

Example scenario_escaped :
  option_map (fun rv => fst (render example_value EStr example_str example_context
                               example_get_value rv example_ctx))
    (match new_RefValue spec_defaults (lit "\${favcolour} results in ${favcolour}.") with
     | Ok rv => Some rv | _ => None end)
  = Some (Ok (EStr (lit "${favcolour} results in yellow."))).
Proof. vm_compute. reflexivity. Qed.

Example scenario_lone_escapes :
  option_map (fun rv => fst (render example_value EStr example_str example_context
                               example_get_value rv example_ctx))
    (match new_RefValue spec_defaults (lit "\ and \\ will be printed normally.") with
     | Ok rv => Some rv | _ => None end)
  = Some (Ok (EStr (lit "\ and \\ will be printed normally."))).
Proof. vm_compute. reflexivity. Qed.

Example scenario_number_in_text :
  option_map (fun rv => fst (render example_value EStr example_str example_context
                               example_get_value rv example_ctx))
    (match new_RefValue spec_defaults (lit "The answer is ${answer}") with
     | Ok rv => Some rv | _ => None end)
  = Some (Ok (EStr (lit "The answer is 42"))).
Proof. vm_compute. reflexivity. Qed.


(** * Further properties of the lexer *)

Lemma marker_text_not_literal (d : defaults) (tag : lt_tag) (pattern : str) :
  marker_text d tag = Some pattern -> tag <> LT_LITERAL.
Proof. intros H E. subst tag. discriminate. Qed.

Lemma marker_text_in (d : defaults) (tag : lt_tag) (pattern : str) :
  marker_text d tag = Some pattern -> In (pattern, tag) (TOKEN_EXPRS d).
Proof.
  destruct tag; cbn; intros H; inversion H; auto.
Qed.

(** A marker that occurs at [pos] makes some token expression match there. *)
Lemma first_match_found (d : defaults) (chars pattern : str) (tag : lt_tag) (pos : nat) :
  In (pattern, tag) (TOKEN_EXPRS d) -> matches_at chars pattern pos = true ->
  first_match d chars pos <> None.
Proof.
  intros Hin Hm Hnone. unfold first_match in Hnone.
  pose proof (find_none _ _ Hnone _ Hin) as Hx. cbn in Hx. congruence.
Qed.

(** X1: every token of a lexed string that is not a literal carries exactly
    the text of its marker, and its marker occurs in the input string. *)
Theorem lex_marker_tokens (d : defaults) (chars : str) (toks : list token) :
  _lex d chars = Ok toks ->
  Forall (fun t => forall pattern, marker_text d (TT_TAG t) = Some pattern ->
                   TT_TEXT t = pattern /\ contains pattern chars = true) toks.
Proof.
  intros Hl. destruct (lex_lossless _ _ _ Hl) as [_ Hok].
  pose proof (lex_marker_occurs _ _ _ Hl) as Hocc.
  rewrite Forall_forall in *. intros t Hin pattern Hm. split.
  - specialize (Hok t Hin). unfold token_ok in Hok. now rewrite Hm in Hok.
  - exact (Hocc t Hin pattern Hm).
Qed.

Lemma lex_marker_tokens_witness :
  Forall (fun t => forall pattern, marker_text spec_defaults (TT_TAG t) = Some pattern ->
                   TT_TEXT t = pattern /\ contains pattern (lit "a\${b}") = true)
    [(lit "a", LT_LITERAL); (lit "\", LT_ESCAPE); (lit "${", LT_INTRPL_START);
     (lit "b", LT_LITERAL); (lit "}", LT_INTRPL_END)].
Proof.
  apply (lex_marker_tokens spec_defaults (lit "a\${b}")). vm_compute. reflexivity.
Defined.

Lemma ends_with_literal_snoc (toks : list token) (t : token) :
  ends_with_literal (toks ++ [t]) = is_literal t.
Proof. unfold ends_with_literal. now rewrite rev_app_distr. Qed.

Lemma no_adjacent_literals_snoc (toks : list token) (t : token) :
  no_adjacent_literals (toks ++ [t]) =
  no_adjacent_literals toks && negb (ends_with_literal toks && is_literal t).
Proof.
  induction toks as [|a toks IH]; [reflexivity|].
  destruct toks as [|b toks].
  - cbn. unfold ends_with_literal. cbn. now rewrite andb_true_r.
  - change ((a :: b :: toks) ++ [t]) with (a :: (b :: toks) ++ [t]).
    change (no_adjacent_literals (a :: (b :: toks) ++ [t]))
      with (negb (is_literal a && is_literal b) && no_adjacent_literals ((b :: toks) ++ [t])).
    rewrite IH.
    change (no_adjacent_literals (a :: b :: toks))
      with (negb (is_literal a && is_literal b) && no_adjacent_literals (b :: toks)).
    assert (E : ends_with_literal (a :: b :: toks) = ends_with_literal (b :: toks)).
    { unfold ends_with_literal. cbn [rev].
      destruct (rev toks ++ [b]) as [|x l] eqn:Er; [now destruct (rev toks)|reflexivity]. }
    rewrite E. now rewrite andb_assoc.
Qed.

(** X2: in the tokens of a lexed string no literal token directly follows
    another one: the text between two markers is one token. *)
Theorem lex_literals_not_adjacent (d : defaults) (chars : str) (toks : list token) :
  _lex d chars = Ok toks -> no_adjacent_literals toks = true.
Proof.
  unfold _lex. intros H.
  destruct (lex_while (2 * length chars + 1) d chars (mkLex 0 [] None)) as [st| |] eqn:Hw;
    try discriminate.
  assert (Hinv : pos st <= length chars
                 /\ no_adjacent_literals (tokens st) = true
                 /\ ends_with_literal (tokens st) = false).
  { refine (proj1 (lex_while_inv
                     (fun st => pos st <= length chars
                                /\ no_adjacent_literals (tokens st) = true
                                /\ ends_with_literal (tokens st) = false)
                     d chars _ _ _ _ _ Hw)).
    - intros s (Hpos & Hna & Hend) Hlt. rewrite lex_body_spec by exact Hpos.
      destruct (first_match d chars (pos s)) as [[pattern tag]|] eqn:Hm.
      + destruct (first_match_some _ _ _ _ _ Hm) as [Hat Htag].
        pose proof (marker_text_not_literal _ _ _ Htag) as Hnl.
        assert (Hil : is_literal (pattern, tag) = false)
          by (unfold is_literal; destruct tag; cbn; congruence).
        cbn [pos tokens]. split; [exact (matches_at_bound _ _ _ Hat Hlt)|].
        rewrite app_assoc, no_adjacent_literals_snoc, ends_with_literal_snoc, Hil.
        rewrite andb_false_r. cbn [negb]. rewrite andb_true_r. split; [|reflexivity].
        unfold flush. destruct (token_literal_start s).
        * rewrite no_adjacent_literals_snoc, Hna, Hend. reflexivity.
        * now rewrite app_nil_r.
      + destruct (token_literal_start s); cbn [pos tokens]; repeat split; try lia; assumption.
    - cbn. repeat split. lia. }
  destruct Hinv as (_ & Hna & Hend). cbn in H.
  destruct (token_literal_start st); injection H as <-; [|exact Hna].
  now rewrite no_adjacent_literals_snoc, Hna, Hend.
Qed.

Lemma lex_literals_not_adjacent_witness :
  no_adjacent_literals
    [(lit "ab", LT_LITERAL); (lit "}", LT_INTRPL_END); (lit "cd", LT_LITERAL)] = true.
Proof.
  apply (lex_literals_not_adjacent spec_defaults (lit "ab}cd")). vm_compute. reflexivity.
Defined.

(** A match inside a slice is a match in the string, wholly before the end
    of the slice. *)
Lemma matches_at_slice (chars pattern : str) (l r i : nat) :
  0 < length pattern ->
  matches_at (slice chars l r) pattern i = true ->
  matches_at chars pattern (l + i) = true /\ l + i < r.
Proof.
  intros Hp H. apply matches_at_eq in H. unfold slice in H.
  rewrite skipn_firstn_comm, firstn_firstn, skipn_skipn in H.
  pose proof (f_equal (@length ascii) H) as Hlen.
  rewrite length_firstn, length_skipn in Hlen.
  assert (Hmin : Nat.min (length pattern) (r - l - i) = length pattern) by lia.
  rewrite Hmin in H. split; [|lia].
  unfold matches_at. apply str_eqb_eq. now rewrite Nat.add_comm.
Qed.

(** A stretch of the string in which no token expression matches contains
    no marker. *)
Lemma slice_marker_free (d : defaults) (chars : str) (l r : nat) (pattern : str) :
  l < r -> r <= length chars ->
  (forall q, l <= q -> q < r -> first_match d chars q = None) ->
  In pattern (markers d) -> contains pattern (slice chars l r) = false.
Proof.
  intros Hlr Hr Hnone Hin.
  unfold markers in Hin. apply in_map_iff in Hin. destruct Hin as ([p tag] & E & Hin).
  cbn in E. subst p.
  destruct (contains pattern (slice chars l r)) eqn:Hc; [|reflexivity]. exfalso.
  unfold contains in Hc. apply existsb_exists in Hc. destruct Hc as (i & _ & Hm).
  destruct pattern as [|c pattern].
  - apply (first_match_found d chars [] tag l Hin); [reflexivity|]. apply Hnone; lia.
  - destruct (matches_at_slice chars (c :: pattern) l r i) as [Hm' Hlt]; [cbn; lia|exact Hm|].
    apply (first_match_found d chars (c :: pattern) tag (l + i) Hin Hm').
    apply Hnone; lia.
Qed.

(** X3: no marker occurs inside the text of a literal token of a lexed
    string: neither the escape character nor a sentinel. *)
Theorem lex_literals_marker_free (d : defaults) (chars : str) (toks : list token) :
  _lex d chars = Ok toks ->
  Forall (fun t => is_literal t = true ->
                   forall pattern, In pattern (markers d) ->
                   contains pattern (TT_TEXT t) = false) toks.
Proof.
  unfold _lex. intros H.
  destruct (lex_while (2 * length chars + 1) d chars (mkLex 0 [] None)) as [st| |] eqn:Hw;
    try discriminate.
  set (Q := fun t : token => is_literal t = true ->
                             forall pattern, In pattern (markers d) ->
                             contains pattern (TT_TEXT t) = false).
  set (K := fun st : lex_state =>
              lex_inv d chars st /\ Forall Q (tokens st)
              /\ forall start, token_literal_start st = Some start ->
                   forall q, start <= q -> q < pos st -> first_match d chars q = None).
  assert (HK : K st /\ length chars <= pos st).
  { refine (lex_while_inv K d chars _ _ _ _ _ Hw).
    - intros s (Hinv & HQ & Hfree) Hlt.
      split; [now apply lex_inv_step|].
      destruct Hinv as (Hpos & _ & Hlit & _).
      rewrite lex_body_spec by exact Hpos.
      destruct (first_match d chars (pos s)) as [[pattern tag]|] eqn:Hm.
      + cbn [pos tokens token_literal_start]. split; [|discriminate].
        destruct (first_match_some _ _ _ _ _ Hm) as [Hat Htag].
        apply Forall_app. split; [exact HQ|]. apply Forall_app. split.
        * unfold flush. destruct (token_literal_start s) as [start|] eqn:El;
            constructor; [|constructor].
          intros _ p Hp. cbn [TT_TEXT fst].
          destruct (Hlit start eq_refl) as (Hle & Hs & Hsame).
          apply (slice_marker_free d chars start (pos s) p); try assumption; try lia.
          -- destruct (Nat.eq_dec start (pos s)) as [E|E]; [|lia].
             discriminate (Hsame E).
          -- exact (Hfree start eq_refl).
        * constructor; [|constructor]. intros Hl. exfalso.
          unfold is_literal in Hl. cbn in Hl. apply lt_eqb_eq in Hl. subst tag. discriminate.
      + destruct (token_literal_start s) as [start|] eqn:El; cbn [pos tokens token_literal_start];
          (split; [exact HQ|]); intros start' E q Hq1 Hq2; injection E as <-.
        * destruct (Nat.eq_dec q (pos s)) as [->|Hne]; [exact Hm|].
          apply (Hfree start eq_refl); lia.
        * lia.
    - split; [apply lex_inv_init|]. split; [constructor|discriminate]. }
  destruct HK as [((Hpos & _ & Hlit & _) & HQ & Hfree) Hge].
  cbn in H. destruct (token_literal_start st) as [start|] eqn:El; injection H as <-;
    [|exact HQ].
  apply Forall_app. split; [exact HQ|]. constructor; [|constructor].
  intros _ p Hp. cbn [TT_TEXT fst]. destruct (Hlit start eq_refl) as (Hle & Hs & _).
  replace (slice_from chars start) with (slice chars start (length chars))
    by (unfold slice, slice_from; apply firstn_all2; rewrite length_skipn; lia).
  apply (slice_marker_free d chars start (length chars) p); try assumption; try lia.
  intros q Hq1 Hq2. apply (Hfree start eq_refl); lia.
Qed.

Lemma lex_literals_marker_free_witness :
  Forall (fun t => is_literal t = true ->
                   forall pattern, In pattern (markers spec_defaults) ->
                   contains pattern (TT_TEXT t) = false)
    [(lit "a$b{c", LT_LITERAL); (lit "}", LT_INTRPL_END); (lit "d", LT_LITERAL)].
Proof.
  apply (lex_literals_marker_free spec_defaults (lit "a$b{c}d")). vm_compute. reflexivity.
Defined.

Lemma skipn_shift (A : Type) (pre rest : list A) (q : nat) :
  skipn (length pre + q) (pre ++ rest) = skipn q rest.
Proof.
  rewrite skipn_app, skipn_all2 by lia.
  replace (length pre + q - length pre) with q by lia. reflexivity.
Qed.

Lemma matches_at_shift (pre rest pattern : str) (q : nat) :
  matches_at (pre ++ rest) pattern (length pre + q) = matches_at rest pattern q.
Proof. unfold matches_at. now rewrite skipn_shift. Qed.

Lemma first_match_shift (d : defaults) (pre rest : str) (q : nat) :
  first_match d (pre ++ rest) (length pre + q) = first_match d rest q.
Proof.
  unfold first_match. cbn [TOKEN_EXPRS List.find fst]. now rewrite !matches_at_shift.
Qed.

Lemma slice_shift (pre rest : str) (a b : nat) :
  slice (pre ++ rest) (length pre + a) (length pre + b) = slice rest a b.
Proof.
  unfold slice. rewrite skipn_shift. f_equal. lia.
Qed.

(** An iteration of the lexer's loop on [rest] is the same iteration on
    [pre ++ rest], shifted by [pre]. *)
Lemma lex_body_shift (d : defaults) (pre rest : str) (done : list token) (st : lex_state) :
  pos st <= length rest ->
  lex_body d (pre ++ rest) (lex_shift pre done st) = lex_shift pre done (lex_body d rest st).
Proof.
  intros Hpos.
  rewrite (lex_body_spec d rest st Hpos).
  rewrite lex_body_spec by (cbn [lex_shift pos]; rewrite length_app; lia).
  cbn [lex_shift pos tokens token_literal_start]. rewrite first_match_shift.
  destruct (first_match d rest (pos st)) as [[pattern tag]|].
  - unfold lex_shift. cbn [pos tokens token_literal_start]. f_equal; [lia|].
    rewrite <- app_assoc. f_equal. f_equal.
    unfold flush. destruct (token_literal_start st); [|reflexivity].
    now rewrite slice_shift.
  - destruct (token_literal_start st); unfold lex_shift; cbn [pos tokens token_literal_start];
      f_equal; lia.
Qed.

Lemma lex_body_pos (d : defaults) (chars : str) (st : lex_state) :
  pos st < length chars -> pos (lex_body d chars st) <= length chars.
Proof.
  intros Hlt. rewrite lex_body_spec by lia.
  destruct (first_match d chars (pos st)) as [[pattern tag]|] eqn:Hm.
  - destruct (first_match_some _ _ _ _ _ Hm) as [Hat _]. cbn [pos].
    exact (matches_at_bound _ _ _ Hat Hlt).
  - destruct (token_literal_start st); cbn [pos]; lia.
Qed.

Lemma lex_while_shift (d : defaults) (pre rest : str) (done : list token) (fuel : nat) :
  forall st, pos st <= length rest ->
  lex_while fuel d (pre ++ rest) (lex_shift pre done st) =
  match lex_while fuel d rest st with
  | Ok st' => Ok (lex_shift pre done st')
  | Raise e => Raise e
  | Diverge => Diverge
  end.
Proof.
  induction fuel as [|fuel IH]; intros st Hpos;
    [rewrite (lex_while_unfold 0 d (pre ++ rest)), (lex_while_unfold 0 d rest)
    |rewrite (lex_while_unfold (S fuel) d (pre ++ rest)), (lex_while_unfold (S fuel) d rest)];
    cbn [lex_shift pos]; rewrite length_app;
    destruct (Nat.ltb_spec (pos st) (length rest)) as [Hlt|Hge];
    destruct (Nat.ltb_spec (length pre + pos st) (length pre + length rest)); try lia;
    try reflexivity.
  change (mkLex (length pre + pos st) (done ++ tokens st)
            match token_literal_start st with
            | Some start => Some (length pre + start)
            | None => None
            end) with (lex_shift pre done st).
  rewrite lex_body_shift by exact Hpos. apply IH. now apply lex_body_pos.
Qed.

(** More iterations allowed do not change what a finished run gives. *)
Lemma lex_while_more_fuel (d : defaults) (chars : str) (fuel : nat) :
  forall st st' k, lex_while fuel d chars st = Ok st' ->
                   lex_while (fuel + k) d chars st = Ok st'.
Proof.
  induction fuel as [|fuel IH]; intros st st' k H; rewrite lex_while_unfold in H;
    rewrite lex_while_unfold; destruct (pos st <? length chars); try discriminate;
    try exact H.
  cbn [Nat.add]. now apply IH.
Qed.

(** X4: the lexer composes after a leading marker: when a marker is the
    first token expression to match at the start of a string, the tokens of
    the string are that marker's token followed by the tokens of the rest. *)
Theorem lex_leading_marker (d : defaults) (marker rest : str) (tag : lt_tag)
    (toks : list token) :
  markers_nonempty d = true ->
  first_match d (marker ++ rest) 0 = Some (marker, tag) ->
  _lex d rest = Ok toks ->
  _lex d (marker ++ rest) = Ok ((marker, tag) :: toks).
Proof.
  intros Hd Hm Hl.
  pose proof (first_match_nonempty _ _ _ _ _ Hd Hm) as Hne.
  unfold _lex in *.
  destruct (lex_while (2 * length rest + 1) d rest (mkLex 0 [] None)) as [st| |] eqn:Hw;
    try discriminate.
  cbn [bind] in Hl.
  replace (2 * length (marker ++ rest) + 1)
    with (S (2 * length rest + 1 + (2 * length marker - 1)))
    by (rewrite length_app; lia).
  rewrite lex_while_unfold. cbn [pos]. rewrite length_app.
  destruct (Nat.ltb_spec 0 (length marker + length rest)); [|lia].
  rewrite lex_body_spec by (cbn; lia). cbn [pos tokens token_literal_start]. rewrite Hm.
  cbn [flush app].
  change (mkLex (0 + length marker) [(marker, tag)] None)
    with (mkLex (0 + length marker) ([(marker, tag)] ++ []) None).
  replace (mkLex (0 + length marker) ([(marker, tag)] ++ []) None)
    with (lex_shift marker [(marker, tag)] (mkLex 0 [] None))
    by (unfold lex_shift; cbn [pos tokens token_literal_start]; f_equal; lia).
  rewrite lex_while_shift by (cbn; lia).
  rewrite (lex_while_more_fuel d rest _ _ _ (2 * length marker - 1) Hw).
  cbn [bind lex_shift token_literal_start tokens].
  destruct (token_literal_start st) as [start|]; injection Hl as <-; [|reflexivity].
  unfold slice_from. rewrite skipn_shift. reflexivity.
Qed.

Lemma lex_leading_marker_witness :
  markers_nonempty spec_defaults = true /\
  _lex spec_defaults (lit "${" ++ lit "a} b")
  = Ok [(lit "${", LT_INTRPL_START); (lit "a", LT_LITERAL); (lit "}", LT_INTRPL_END);
        (lit " b", LT_LITERAL)].
Proof.
  split; [reflexivity|].
  apply (lex_leading_marker spec_defaults (lit "${") (lit "a} b") LT_INTRPL_START
           [(lit "a", LT_LITERAL); (lit "}", LT_INTRPL_END); (lit " b", LT_LITERAL)]);
    vm_compute; reflexivity.
Defined.

(** * Further properties of the parser *)

(** The loop of [_parse] raises only where a start marker is. *)
Lemma parse_for_raise_start (d : defaults) (tokens : list token) (fuel : nat) :
  forall st e,
  parse_for fuel d tokens (Z.of_nat (length tokens) - 1) st = Raise e ->
  exists t, In t tokens /\ TT_TAG t = LT_INTRPL_START.
Proof.
  induction fuel as [|fuel IH]; intros st e H; rewrite parse_for_unfold in H;
    destruct (next tokens (token_iterator st)) as [[[index token] it]|] eqn:Hn;
    try discriminate.
  destruct (next_some _ _ _ _ _ Hn) as (Hnth & -> & ->).
  destruct (parse_body_total d tokens (token_iterator st) token
              (mkParse (S (token_iterator st)) (parts st) (p_self st)) Hnth eq_refl)
    as [[st1 Hb]|(e1 & Hb & _ & Htag)]; rewrite Hb in H; cbn [bind] in H.
  - exact (IH _ _ H).
  - exists token. split; [exact (nth_error_In _ _ Hnth)|exact Htag].
Qed.

(** X5: [_parse] ends on every token list; when it raises, the exception is
    [IndexError], the incomplete-interpolation error with the end sentinel or
    the interpolation error, never the [StopIteration] of its own calls of
    [next], and the token list holds a start marker. *)
Theorem parse_raises_only_in_interpolation (d : defaults) (self : RefValue)
    (tokens : list token) :
  _parse d self tokens <> Diverge
  /\ forall e, _parse d self tokens = Raise e ->
       parse_error d e /\ e <> StopIteration
       /\ exists t, In t tokens /\ TT_TAG t = LT_INTRPL_START.
Proof.
  split.
  - destruct (parse_total d self tokens) as [(ps & self' & H)|(e & H & _)]; rewrite H;
      discriminate.
  - intros e H.
    destruct (parse_total d self tokens) as [(ps & self' & H')|(e' & H' & He)];
      rewrite H' in H; [discriminate|]. injection H as <-.
    split; [exact He|]. split.
    + destruct He as [->|[[name ->]| ->]]; discriminate.
    + unfold _parse in H'.
      destruct (parse_for (length tokens) d tokens (Z.of_nat (length tokens) - 1)
                  (mkParse 0 [] self)) as [st|e0|] eqn:Hf; cbn [bind] in H'; try discriminate.
      exact (parse_for_raise_start _ _ _ _ _ Hf).
Qed.

Lemma parse_shape_no_reference (toks : list token) (ps : list part) (h : bool) :
  Forall (fun t => TT_TAG t <> LT_INTRPL_START) toks ->
  parse_shape toks ps h -> filter is_reference ps = [].
Proof.
  intros Hall Hs. induction Hs as [|toks1 ps1 h1 toks2 ps2 h2 Hs IH Hstep]; [reflexivity|].
  apply Forall_app in Hall. destruct Hall as [H1 H2].
  rewrite filter_app, (IH H1). cbn [app].
  destruct Hstep as [toks|escape t|start body stop Hstart Hstop Hne].
  - clear. induction toks as [|t toks IHt]; [reflexivity|exact IHt].
  - reflexivity.
  - inversion H2; subst. congruence.
Qed.

(** X6: on a token list without a start marker [_parse] always returns, and
    none of the parts it returns is a reference. *)
Theorem parse_without_start_marker (d : defaults) (self : RefValue) (tokens : list token) :
  Forall (fun t => TT_TAG t <> LT_INTRPL_START) tokens ->
  exists ps self', _parse d self tokens = Ok (ps, self')
                   /\ filter is_reference ps = [].
Proof.
  intros Hall.
  destruct (parse_total d self tokens) as [(ps & self' & H)|(e & H & _)].
  - exists ps, self'. split; [exact H|].
    destruct (parse_ok _ _ _ _ _ H) as (h & Hs & _).
    exact (parse_shape_no_reference _ _ _ Hall Hs).
  - exfalso. unfold _parse in H.
    destruct (parse_for (length tokens) d tokens (Z.of_nat (length tokens) - 1)
                (mkParse 0 [] self)) as [st|e0|] eqn:Hf; cbn [bind] in H; try discriminate.
    destruct (parse_for_raise_start _ _ _ _ _ Hf) as (t & Hin & Ht).
    rewrite Forall_forall in Hall. exact (Hall t Hin Ht).
Qed.

Lemma parse_without_start_marker_witness :
  exists ps self',
    _parse spec_defaults (init_self (lit "\\}") (lit ".") [])
      [(lit "\", LT_ESCAPE); (lit "\", LT_ESCAPE); (lit "}", LT_INTRPL_END)]
    = Ok (ps, self')
    /\ filter is_reference ps = [].
Proof.
  apply parse_without_start_marker.
  repeat constructor; discriminate.
Defined.

Lemma parse_shape_plain (toks : list token) (ps : list part) (h : bool) :
  Forall (fun t => TT_TAG t <> LT_INTRPL_START /\ TT_TAG t <> LT_ESCAPE) toks ->
  parse_shape toks ps h ->
  ps = map (fun t => mkPart PT_LITERAL (TT_TEXT t)) toks /\ h = false.
Proof.
  intros Hall Hs. induction Hs as [|toks1 ps1 h1 toks2 ps2 h2 Hs IH Hstep]; [auto|].
  apply Forall_app in Hall. destruct Hall as [H1 H2].
  destruct (IH H1) as [-> ->]. rewrite map_app.
  destruct Hstep as [toks|escape t Hesc|start body stop Hstart Hstop Hne].
  - auto.
  - inversion H2 as [|? ? [_ Hx] _]; subst. congruence.
  - inversion H2 as [|? ? [Hx _] _]; subst. congruence.
Qed.

(** X7: on a token list with neither a start marker nor an escape token,
    [_parse] returns every token as a literal part, a stray end marker
    included, and leaves [_has_escapes] as it was. *)
Theorem parse_plain_tokens (d : defaults) (self : RefValue) (tokens : list token) :
  Forall (fun t => TT_TAG t <> LT_INTRPL_START /\ TT_TAG t <> LT_ESCAPE) tokens ->
  _parse d self tokens = Ok (map (fun t => mkPart PT_LITERAL (TT_TEXT t)) tokens, self).
Proof.
  intros Hall.
  destruct (parse_total d self tokens) as [(ps & self' & H)|(e & H & _)].
  - destruct (parse_ok _ _ _ _ _ H) as (h & Hs & ->).
    destruct (parse_shape_plain _ _ _ Hall Hs) as [-> ->]. exact H.
  - exfalso. unfold _parse in H.
    destruct (parse_for (length tokens) d tokens (Z.of_nat (length tokens) - 1)
                (mkParse 0 [] self)) as [st|e0|] eqn:Hf; cbn [bind] in H; try discriminate.
    destruct (parse_for_raise_start _ _ _ _ _ Hf) as (t & Hin & Ht).
    rewrite Forall_forall in Hall. destruct (Hall t Hin) as [Hx _]. exact (Hx Ht).
Qed.

Lemma parse_plain_tokens_witness :
  _parse spec_defaults (init_self (lit "a}b") (lit ".") [])
    [(lit "a", LT_LITERAL); (lit "}", LT_INTRPL_END); (lit "b", LT_LITERAL)]
  = Ok ([mkPart PT_LITERAL (lit "a"); mkPart PT_LITERAL (lit "}"); mkPart PT_LITERAL (lit "b")],
        init_self (lit "a}b") (lit ".") []).
Proof.
  apply (parse_plain_tokens spec_defaults (init_self (lit "a}b") (lit ".") [])
           [(lit "a", LT_LITERAL); (lit "}", LT_INTRPL_END); (lit "b", LT_LITERAL)]).
  repeat constructor; discriminate.
Defined.

Lemma parse_raises_only_in_interpolation_witness :
  let tokens := [(lit "${", LT_INTRPL_START); (lit "a", LT_LITERAL)] in
  let e := IncompleteInterpolationError (lit "a") (lit "}") in
  parse_error spec_defaults e /\ e <> StopIteration
  /\ exists t, In t tokens /\ TT_TAG t = LT_INTRPL_START.
Proof.
  intros tokens e.
  apply (proj2 (parse_raises_only_in_interpolation spec_defaults
                  (init_self (lit "${a") (lit ".") tokens) tokens) e).
  vm_compute. reflexivity.
Defined.

(** * Further properties of the interpolation sub-scan *)

(** The scan goes through the tokens before the first end marker and adds
    the text of each to the name. *)
Lemma interpolation_while_first_end (d : defaults) (tokens : list token) (stop : token)
    (rest : list token) (body : list token) :
  forall (fuel it : nat) (ps : list str),
  skipn it tokens = body ++ stop :: rest ->
  Forall (fun t => TT_TAG t <> LT_INTRPL_END) body ->
  TT_TAG stop = LT_INTRPL_END ->
  length body < fuel ->
  interpolation_while fuel d tokens it ps
  = Ok (ps ++ map TT_TEXT body, it + length body + 1).
Proof.
  induction body as [|t body IH]; intros fuel it ps Hskip Hall Hstop Hfuel;
    (destruct fuel as [|fuel]; [cbn in Hfuel; lia|]);
    rewrite interpolation_while_unfold, (skipn_head _ _ _ _ _ Hskip).
  - rewrite Hstop. cbn [lt_eqb map length]. rewrite app_nil_r. f_equal. f_equal. lia.
  - pose proof (skipn_head _ _ _ _ _ Hskip) as Hn.
    assert (Hskip' : skipn (S it) tokens = body ++ stop :: rest).
    { rewrite (skipn_nth _ _ _ _ Hn) in Hskip. cbn in Hskip. now injection Hskip. }
    inversion Hall as [|? ? Ht Hall']; subst.
    assert (Hnext : nth_error tokens (S it) <> None).
    { destruct body as [|b body'].
      - rewrite (skipn_head _ tokens (S it) stop rest Hskip'). discriminate.
      - rewrite (skipn_head _ tokens (S it) b (body' ++ stop :: rest) Hskip'). discriminate. }
    assert (Hrec : interpolation_while fuel d tokens (S it) (ps ++ [TT_TEXT t])
                   = Ok (ps ++ map TT_TEXT (t :: body), it + length (t :: body) + 1)).
    { rewrite (IH fuel (S it) _ Hskip' Hall' Hstop) by (cbn in Hfuel; lia).
      cbn [map length]. rewrite <- app_assoc. f_equal. f_equal. lia. }
    destruct (TT_TAG t); try congruence; cbn [lt_eqb]; try exact Hrec.
    destruct (nth_error tokens (S it)); [exact Hrec|congruence].
Qed.

(** X8: a reference ends at the first end marker: when the tokens at the
    iterator are a non-empty run without end marker followed by an end
    marker, [_parse_interpolation] returns the concatenated texts of the run
    (start markers and escapes in it included) and leaves the iterator just
    behind that end marker. *)
Theorem parse_interpolation_first_end (d : defaults) (tokens : list token) (it : nat)
    (body : list token) (stop : token) (rest : list token) :
  skipn it tokens = body ++ stop :: rest ->
  Forall (fun t => TT_TAG t <> LT_INTRPL_END) body ->
  TT_TAG stop = LT_INTRPL_END ->
  body <> [] ->
  _parse_interpolation d it tokens
  = Ok (concat (map TT_TEXT body), it + length body + 1).
Proof.
  intros Hskip Hall Hstop Hne. unfold _parse_interpolation.
  rewrite (interpolation_while_first_end d tokens stop rest body _ it [] Hskip Hall Hstop).
  - cbn [bind app]. rewrite str_join_nil.
    destruct body; [congruence|reflexivity].
  - assert (Hlen : length (skipn it tokens) <= length tokens)
      by (rewrite length_skipn; lia).
    rewrite Hskip, length_app in Hlen. cbn in Hlen. lia.
Qed.

Lemma parse_interpolation_first_end_witness :
  _parse_interpolation spec_defaults 1
    [(lit "${", LT_INTRPL_START); (lit "a", LT_LITERAL); (lit "${", LT_INTRPL_START);
     (lit "b", LT_LITERAL); (lit "}", LT_INTRPL_END); (lit "}", LT_INTRPL_END)]
  = Ok (lit "a${b", 5).
Proof.
  apply (parse_interpolation_first_end spec_defaults _ 1
           [(lit "a", LT_LITERAL); (lit "${", LT_INTRPL_START); (lit "b", LT_LITERAL)]
           (lit "}", LT_INTRPL_END) [(lit "}", LT_INTRPL_END)]).
  - reflexivity.
  - repeat constructor; discriminate.
  - reflexivity.
  - discriminate.
Defined.

Lemma interpolation_while_no_end (d : defaults) (tokens : list token) (fuel : nat) :
  forall (it : nat) (ps : list str),
  Forall (fun t => TT_TAG t <> LT_INTRPL_END) (skipn it tokens) ->
  (forall i e, nth_error tokens i = Some e -> TT_TAG e = LT_ESCAPE -> S i < length tokens) ->
  length tokens - it < fuel ->
  interpolation_while fuel d tokens it ps =
  Raise (IncompleteInterpolationError (concat (ps ++ map TT_TEXT (skipn it tokens)))
           (snd (PARAMETER_INTERPOLATION_SENTINELS d))).
Proof.
  induction fuel as [|fuel IH]; intros it ps Hall Hesc Hlt; [lia|].
  rewrite interpolation_while_unfold.
  destruct (nth_error tokens it) as [token|] eqn:Hn.
  - pose proof (nth_error_lt _ _ _ _ Hn) as Hit.
    pose proof (skipn_nth _ _ _ _ Hn) as Hskip.
    rewrite Hskip in Hall. apply Forall_cons_iff in Hall. destruct Hall as [Hne Hrest].
    rewrite Hskip.
    assert (Hrec : interpolation_while fuel d tokens (S it) (ps ++ [TT_TEXT token]) =
                   Raise (IncompleteInterpolationError
                            (concat (ps ++ map TT_TEXT (token :: skipn (S it) tokens)))
                            (snd (PARAMETER_INTERPOLATION_SENTINELS d)))).
    { rewrite (IH (S it) _ Hrest Hesc) by lia. cbn [map]. now rewrite <- app_assoc. }
    destruct (TT_TAG token) eqn:Ht; try congruence; cbn [lt_eqb]; try exact Hrec.
    destruct (nth_error tokens (S it)) eqn:Hn1; [exact Hrec|].
    apply nth_error_None in Hn1. specialize (Hesc it token Hn Ht). lia.
  - apply nth_error_None in Hn. rewrite skipn_all2 by exact Hn. cbn [map].
    now rewrite app_nil_r.
Qed.

(** X9: when no end marker follows and no escape token is the last token,
    [_parse_interpolation] raises the incomplete-interpolation error, with
    all the text from the iterator to the end of the tokens as the name and
    with the end sentinel. *)
Theorem parse_interpolation_unterminated (d : defaults) (tokens : list token) (it : nat) :
  Forall (fun t => TT_TAG t <> LT_INTRPL_END) (skipn it tokens) ->
  (forall i e, nth_error tokens i = Some e -> TT_TAG e = LT_ESCAPE -> S i < length tokens) ->
  _parse_interpolation d it tokens =
  Raise (IncompleteInterpolationError (concat (map TT_TEXT (skipn it tokens)))
           (snd (PARAMETER_INTERPOLATION_SENTINELS d))).
Proof.
  intros Hall Hesc. unfold _parse_interpolation.
  rewrite (interpolation_while_no_end d tokens _ it [] Hall Hesc) by lia.
  reflexivity.
Qed.

Lemma parse_interpolation_unterminated_witness :
  _parse_interpolation spec_defaults 1
    [(lit "${", LT_INTRPL_START); (lit "a", LT_LITERAL); (lit "\", LT_ESCAPE);
     (lit "b", LT_LITERAL)]
  = Raise (IncompleteInterpolationError (lit "a\b") (lit "}")).
Proof.
  apply (parse_interpolation_unterminated spec_defaults
           [(lit "${", LT_INTRPL_START); (lit "a", LT_LITERAL); (lit "\", LT_ESCAPE);
            (lit "b", LT_LITERAL)] 1).
  - repeat constructor; discriminate.
  - intros i e H Ht.
    do 4 (destruct i as [|i];
          [cbn in H; injection H as <-; first [discriminate Ht | cbn; lia]|]).
    destruct i; discriminate H.
Defined.

(** * Further properties of construction *)

Lemma spec_escape_rule_sets (escape : token) (following : list token) :
  sets_has_escapes (spec_escape_rule escape following) = true ->
  exists t rest, following = t :: rest /\ escapable (TT_TAG t) = true.
Proof.
  unfold spec_escape_rule. destruct following as [|t rest]; [discriminate|].
  rewrite escapable_tag. intros H. exists t, rest. split; [reflexivity|].
  destruct (escapable (TT_TAG t)); [reflexivity|discriminate].
Qed.

(** An iteration of the loop of [_parse] sets [_has_escapes] only at an
    escape token that has an escapable token behind it. *)
Lemma parse_body_self (d : defaults) (tokens : list token) (index : nat) (token : token)
    (st st' : parse_state) :
  nth_error tokens index = Some token ->
  token_iterator st = S index ->
  parse_body d tokens (Z.of_nat (length tokens) - 1) index token st = Ok st' ->
  p_self st' = p_self st
  \/ (TT_TAG token = LT_ESCAPE
      /\ exists t, nth_error tokens (S index) = Some t /\ escapable (TT_TAG t) = true).
Proof.
  intros Hn Hit H. destruct (TT_TAG token) eqn:Htag.
  - rewrite (parse_body_escape d tokens index token st Hn Htag Hit) in H. cbv zeta in H.
    destruct (sets_has_escapes (spec_escape_rule token (skipn (S index) tokens))) eqn:Es.
    + right. split; [reflexivity|].
      destruct (spec_escape_rule_sets _ _ Es) as (t & rest & Hs & He).
      exists t. split; [exact (skipn_head _ _ _ _ _ Hs)|exact He].
    + left. injection H as <-. reflexivity.
  - left. unfold parse_body in H. rewrite Htag in H. cbn [lt_eqb] in H.
    destruct (_parse_interpolation d (token_iterator st) tokens) as [[name it']| |];
      cbn [bind] in H; try discriminate. injection H as <-. reflexivity.
  - left. unfold parse_body in H. rewrite Htag in H. cbn [lt_eqb] in H.
    injection H as <-. reflexivity.
  - left. unfold parse_body in H. rewrite Htag in H. cbn [lt_eqb] in H.
    injection H as <-. reflexivity.
Qed.

Lemma parse_reaches_has_escapes (d : defaults) (tokens : list token) (self : RefValue)
    (st : parse_state) :
  parse_reaches d tokens self st ->
  _has_escapes self = false ->
  _has_escapes (p_self st) = true ->
  exists i e t, nth_error tokens i = Some e /\ TT_TAG e = LT_ESCAPE
                /\ nth_error tokens (S i) = Some t /\ escapable (TT_TAG t) = true.
Proof.
  induction 1 as [|st st' index token it Hr IH Hn Hb]; intros Hself Hset.
  - cbn in Hset. congruence.
  - destruct (next_some _ _ _ _ _ Hn) as (Hnth & -> & ->).
    destruct (parse_body_self d tokens _ token
                (mkParse (S (token_iterator st)) (parts st) (p_self st)) st' Hnth eq_refl Hb)
      as [E|(Htag & t & Ht & He)].
    + cbn [p_self] in E. rewrite E in Hset. now apply IH.
    + exists (token_iterator st), token, t. auto.
Qed.

Lemma contains_middle (before pattern after : str) :
  contains pattern (before ++ pattern ++ after) = true.
Proof.
  apply (contains_intro pattern _ (length before)).
  - rewrite length_app. lia.
  - unfold matches_at. apply str_eqb_eq.
    replace (length before) with (length before + 0) by lia.
    rewrite skipn_shift. cbn [skipn].
    rewrite firstn_app, firstn_all, Nat.sub_diag. cbn. now rewrite app_nil_r.
Qed.

(** X10: [has_escapes] is true on a constructed object only if the source
    holds the escape character directly followed by the escape character or
    by the start sentinel. *)
Theorem has_escapes_needs_escaped_marker (d : defaults) (s delim : str) (rv : RefValue) :
  __init__ d s delim = Ok rv ->
  has_escapes rv = true ->
  contains (ESCAPE_CHARACTER d ++ ESCAPE_CHARACTER d) s = true
  \/ contains (ESCAPE_CHARACTER d ++ fst (PARAMETER_INTERPOLATION_SENTINELS d)) s = true.
Proof.
  unfold __init__. intros H Hset.
  destruct (_lex d s) as [toks| |] eqn:Hl; try discriminate. cbn [bind] in H.
  change (set_tokens (mkRefValue None s delim false [] []) toks)
    with (init_self s delim toks) in H.
  change (_tokens (init_self s delim toks)) with toks in H.
  unfold _parse in H.
  destruct (parse_for (length toks) d toks (Z.of_nat (length toks) - 1)
              (mkParse 0 [] (init_self s delim toks))) as [st| |] eqn:Hf; try discriminate.
  cbn [bind] in H.
  assert (Hrv : _has_escapes rv = _has_escapes (p_self st)).
  { unfold get_references in H. destruct (_refs (set_parts (p_self st) (parts st)));
      injection H as <-; reflexivity. }
  destruct (parse_for_reaches d toks _ _ _ _ (reaches_start d toks _) Hf) as [Hr _].
  unfold has_escapes in Hset. rewrite Hrv in Hset.
  destruct (parse_reaches_has_escapes _ _ _ _ Hr eq_refl Hset)
    as (i & e & t & Hi & He & Hi1 & Ht).
  destruct (lex_lossless _ _ _ Hl) as [Hcat Hok].
  destruct (nth_error_split _ _ Hi) as (pre & post & -> & Hlen). subst i.
  replace (S (length pre)) with (length pre + 1) in Hi1 by lia.
  rewrite (nth_error_following _ pre e post 0) in Hi1.
  destruct post as [|t' post]; [discriminate|]. cbn in Hi1. injection Hi1 as ->.
  apply Forall_app in Hok. destruct Hok as [_ Hok].
  inversion Hok as [|? ? Hoke Hok']; subst. inversion Hok' as [|? ? Hokt _]; subst.
  unfold token_ok in Hoke, Hokt. rewrite He in Hoke. cbn in Hoke.
  rewrite map_app, concat_app. cbn [map concat]. rewrite Hoke.
  destruct (TT_TAG t) eqn:Tt; try discriminate; cbn in Hokt; rewrite Hokt; [left|right];
    rewrite (app_assoc (ESCAPE_CHARACTER d)); apply contains_middle.
Qed.

Lemma has_escapes_needs_escaped_marker_witness :
  contains (ESCAPE_CHARACTER spec_defaults ++ ESCAPE_CHARACTER spec_defaults)
    (lit "a\${b}") = true
  \/ contains (ESCAPE_CHARACTER spec_defaults
               ++ fst (PARAMETER_INTERPOLATION_SENTINELS spec_defaults)) (lit "a\${b}") = true.
Proof.
  destruct (__init__ spec_defaults (lit "a\${b}") (lit ".")) as [rv| |] eqn:H.
  - apply (has_escapes_needs_escaped_marker spec_defaults (lit "a\${b}") (lit ".") rv H).
    vm_compute in H. injection H as <-. reflexivity.
  - vm_compute in H. discriminate H.
  - vm_compute in H. discriminate H.
Defined.

(** * Further properties of rendering *)

Lemma redisplay_without_references (d : defaults) (ps : list part) :
  filter is_reference ps = [] -> redisplay d ps = concat (map data ps).
Proof.
  unfold redisplay. induction ps as [|[[|] name] ps IH]; cbn; intros H.
  - reflexivity.
  - now rewrite IH.
  - discriminate.
Qed.

(** A constructed object whose source has no start marker among its tokens
    has no reference part. *)
Lemma init_without_start (d : defaults) (s delim : str) (toks : list token) :
  _lex d s = Ok toks ->
  Forall (fun t => TT_TAG t <> LT_INTRPL_START) toks ->
  exists rv, __init__ d s delim = Ok rv /\ filter is_reference (_parts rv) = [].
Proof.
  intros Hl Hall. unfold __init__. rewrite Hl. cbn [bind].
  change (set_tokens (mkRefValue None s delim false [] []) toks)
    with (init_self s delim toks).
  change (_tokens (init_self s delim toks)) with toks.
  destruct (parse_total d (init_self s delim toks) toks) as [(ps & self' & H)|(e & H & _)].
  - rewrite H. cbn [bind].
    destruct (parse_ok _ _ _ _ _ H) as (h & Hs & ->).
    pose proof (parse_shape_no_reference _ _ _ Hall Hs) as Hnr.
    destruct h; cbn; eexists; split; try reflexivity; exact Hnr.
  - exfalso. unfold _parse in H.
    destruct (parse_for (length toks) d toks (Z.of_nat (length toks) - 1)
                (mkParse 0 [] (init_self s delim toks))) as [st|e0|] eqn:Hf;
      cbn [bind] in H; try discriminate.
    destruct (parse_for_raise_start _ _ _ _ _ Hf) as (t & Hin & Ht).
    rewrite Forall_forall in Hall. exact (Hall t Hin Ht).
Qed.

Section RenderFurther.

Variable value : Type.
Variable VStr : str -> value.
Variable py_str : value -> builtin_result.
Variable context : Type.
Variable dictpath_get_value : str -> str -> context -> option value.

Local Abbreviation render_ := (render value VStr py_str context dictpath_get_value).
Local Abbreviation resolve_ := (_resolve value context dictpath_get_value).

Lemma assemble_for_literals (ps : list part) (resolver : str -> result value) :
  filter is_reference ps = [] ->
  forall ret, assemble_for value py_str ps resolver ret = Ok (ret ++ concat (map data ps)).
Proof.
  induction ps as [|[[|] name] ps IH]; cbn [filter is_reference ptype]; intros H ret.
  - cbn. now rewrite app_nil_r.
  - cbn [assemble_for ptype data map concat]. rewrite (IH H). now rewrite <- app_assoc.
  - discriminate.
Qed.

(** Without references [render] gives the texts of the parts, whatever the
    context. *)
Lemma render_no_references (d : defaults) (s delim : str) (rv : RefValue) (ctx : context) :
  __init__ d s delim = Ok rv ->
  filter is_reference (_parts rv) = [] ->
  render_ rv ctx = (Ok (VStr (concat (map data (_parts rv)))), rv).
Proof.
  intros H Hnr. destruct (init_refs _ _ _ _ H) as (Hrefs & Hs & _).
  destruct (init_ok _ _ _ _ H) as (toks & h & Hl & Hshape & E).
  destruct (lex_lossless _ _ _ Hl) as [Hcat Hok].
  destruct (parse_shape_redisplay d toks _ h Hok Hshape) as (_ & Hfalse & _).
  unfold render. rewrite (assemble_stored value VStr py_str _ _ Hrefs). cbv zeta.
  rewrite Hnr. cbn [map length Nat.ltb Nat.leb negb andb].
  rewrite andb_false_r.
  destruct (_has_escapes rv) eqn:Eh; cbn [negb].
  - now rewrite (assemble_for_literals _ _ Hnr).
  - assert (Hh : h = false) by (rewrite E in Eh; exact Eh).
    rewrite Hs, <- Hcat, <- (Hfalse Hh), (redisplay_without_references d _ Hnr). reflexivity.
Qed.

(** X11: on a constructed object without references, for instance one whose
    references are all escaped, [render] never raises and does not depend on
    the context: it returns the texts of the parts, one after the other. *)
Theorem render_without_references (d : defaults) (s delim : str) (rv : RefValue) :
  __init__ d s delim = Ok rv ->
  fst (get_references rv) = [] ->
  forall ctx, render_ rv ctx = (Ok (VStr (concat (map data (_parts rv)))), rv).
Proof.
  intros H Hrefs ctx. apply (render_no_references d s delim rv ctx H).
  destruct (init_refs _ _ _ _ H) as (Hr & _ & _).
  rewrite (get_references_stored _ _ Hr) in Hrefs. cbn [fst] in Hrefs.
  destruct (filter is_reference (_parts rv)); [reflexivity|discriminate].
Qed.

(** X12: a source in which the start sentinel does not occur is always
    constructed, has no references and renders to a string for every
    context; if the escape character does not occur in it either, it
    renders to itself, end sentinels included. *)
Theorem source_without_start_sentinel (d : defaults) (s delim : str) :
  markers_nonempty d = true ->
  contains (fst (PARAMETER_INTERPOLATION_SENTINELS d)) s = false ->
  exists rv,
    __init__ d s delim = Ok rv
    /\ fst (get_references rv) = []
    /\ (forall ctx, exists text, render_ rv ctx = (Ok (VStr text), rv))
    /\ (contains (ESCAPE_CHARACTER d) s = false ->
        forall ctx, render_ rv ctx = (Ok (VStr s), rv)).
Proof.
  intros Hd Hc. destruct (lex_terminates d s Hd) as [toks Hl].
  pose proof (lex_marker_occurs _ _ _ Hl) as Hocc.
  assert (Hall : Forall (fun t => TT_TAG t <> LT_INTRPL_START) toks).
  { eapply Forall_impl; [|exact Hocc]. intros t Ht E.
    rewrite (Ht (fst (PARAMETER_INTERPOLATION_SENTINELS d))) in Hc; [discriminate|].
    now rewrite E. }
  destruct (init_without_start d s delim toks Hl Hall) as (rv & H & Hnr).
  destruct (init_refs _ _ _ _ H) as (Hrefs & Hs & _).
  exists rv. split; [exact H|]. split; [|split].
  - rewrite (get_references_stored _ _ Hrefs). cbn [fst]. now rewrite Hnr.
  - intros ctx. eexists. exact (render_no_references d s delim rv ctx H Hnr).
  - intros Hesc ctx.
    destruct (init_ok _ _ _ _ H) as (toks' & h & Hl' & Hshape & E).
    rewrite Hl in Hl'. injection Hl' as <-.
    destruct (lex_lossless _ _ _ Hl) as [_ Hok].
    destruct (parse_shape_redisplay d toks _ h Hok Hshape) as (_ & _ & Htrue).
    assert (Hh : h = false).
    { destruct h; [|reflexivity]. destruct (Htrue eq_refl) as (t & Hin & Ht).
      rewrite Forall_forall in Hocc. specialize (Hocc t Hin (ESCAPE_CHARACTER d)).
      rewrite Ht in Hocc. rewrite (Hocc eq_refl) in Hesc. discriminate. }
    unfold render. rewrite (assemble_stored value VStr py_str _ _ Hrefs). cbv zeta.
    rewrite Hnr, Hs. rewrite E. cbn [_has_escapes]. now rewrite Hh.
Qed.

Lemma assemble_for_substituted (self : RefValue) (ctx : context) (ps : list part) :
  Forall (fun name => exists v text, dictpath_get_value (_delim self) name ctx = Some v
                                     /\ py_str v = Returns text)
    (map data (filter is_reference ps)) ->
  forall ret,
  assemble_for value py_str ps (fun s => resolve_ self s ctx) ret
  = Ok (ret ++ substituted value py_str
                 (fun name => dictpath_get_value (_delim self) name ctx) ps).
Proof.
  unfold substituted.
  induction ps as [|[[|] name] ps IH]; cbn [filter is_reference ptype map data];
    intros Hall ret.
  - cbn. now rewrite app_nil_r.
  - cbn [assemble_for ptype data concat]. rewrite (IH Hall). now rewrite <- app_assoc.
  - inversion Hall as [|? ? (v & text & Hv & Hs) Hall']; subst.
    rewrite (assemble_for_reference value py_str context dictpath_get_value), Hv, Hs.
    cbn [concat]. rewrite (IH Hall'). now rewrite <- app_assoc.
Qed.

(** X13: when the lookup finds every reference of a constructed object,
    [str()] returns on each of their values and the object is not a lone
    reference, [render] returns the string made of the literal texts and of
    [str()] of the value of each reference, in the order of the parts. *)
Theorem render_substitutes_references (d : defaults) (s delim : str) (rv : RefValue)
    (ctx : context) :
  __init__ d s delim = Ok rv ->
  (forall name, _parts rv <> [mkPart PT_REFERENCE name]) ->
  Forall (fun name => exists v text, dictpath_get_value delim name ctx = Some v
                                     /\ py_str v = Returns text)
    (fst (get_references rv)) ->
  render_ rv ctx
  = (Ok (VStr (substituted value py_str (fun name => dictpath_get_value delim name ctx)
                 (_parts rv))), rv).
Proof.
  intros H Hlone Hall. destruct (init_refs _ _ _ _ H) as (Hrefs & Hs & Hdelim).
  rewrite (get_references_stored _ _ Hrefs) in Hall. cbn [fst] in Hall.
  destruct (render_constructed value VStr py_str context dictpath_get_value d s delim rv ctx H)
    as [Hsnd [(Hr0 & Hh & Hr)|[(name & Hp & _)|(_ & Hr)]]].
  - assert (Hnr : filter is_reference (_parts rv) = [])
      by (destruct (filter is_reference (_parts rv)); [reflexivity|discriminate]).
    rewrite (render_no_references d s delim rv ctx H Hnr). f_equal. f_equal. f_equal.
    unfold substituted. clear -Hnr.
    induction (_parts rv) as [|[[|] name] ps IH]; cbn in *; try discriminate;
      [reflexivity|now rewrite IH].
  - exfalso. exact (Hlone name Hp).
  - rewrite (surjective_pairing (render_ rv ctx)), Hsnd, Hr.
    rewrite <- Hdelim in Hall. rewrite (assemble_for_substituted rv ctx _ Hall).
    cbn [bind app]. now rewrite Hdelim.
Qed.

(** X14: when [render] raises the undefined-variable error, the name it
    carries is the first reference, in the order of [get_references], that
    the lookup does not find; every reference before it is found. *)
Theorem render_raises_first_unresolved (d : defaults) (s delim : str) (rv : RefValue)
    (ctx : context) (name : str) :
  __init__ d s delim = Ok rv ->
  fst (render_ rv ctx) = Raise (UndefinedVariableError name) ->
  exists before after,
    fst (get_references rv) = before ++ name :: after
    /\ Forall (fun n => dictpath_get_value delim n ctx <> None) before
    /\ dictpath_get_value delim name ctx = None.
Proof.
  intros H He. destruct (init_refs _ _ _ _ H) as (Hrefs & _ & Hdelim).
  rewrite (get_references_stored _ _ Hrefs). cbn [fst].
  destruct (render_constructed value VStr py_str context dictpath_get_value d s delim rv ctx H)
    as [_ [(_ & _ & Hr)|[(name' & Hp & Hr)|(_ & Hr)]]]; rewrite Hr in He.
  - discriminate.
  - unfold _resolve in He. rewrite Hdelim in He.
    destruct (dictpath_get_value delim name' ctx) eqn:E; [discriminate|].
    injection He as <-. exists [], []. rewrite Hp. cbn. auto.
  - destruct (assemble_for value py_str (_parts rv) (fun s0 => resolve_ rv s0 ctx) [])
      as [text|e'|] eqn:Ha; cbn [bind] in He; try discriminate.
    injection He as ->. rewrite <- Hdelim.
    exact (assemble_for_raise_undefined value py_str context dictpath_get_value
             rv ctx name _ _ Ha).
Qed.

End RenderFurther.

(** X15: with non-empty markers construction ends for every source string:
    it gives an object, or raises [IndexError], the incomplete-interpolation
    error with the end sentinel, or the interpolation error, and nothing
    else. *)
Theorem construction_outcomes (d : defaults) (s delim : str) :
  markers_nonempty d = true ->
  (exists rv, __init__ d s delim = Ok rv)
  \/ __init__ d s delim = Raise IndexError
  \/ (exists name,
        __init__ d s delim
        = Raise (IncompleteInterpolationError name (snd (PARAMETER_INTERPOLATION_SENTINELS d))))
  \/ __init__ d s delim = Raise (InterpolationError empty_name_msg).
Proof.
  intros Hd. destruct (init_total d s delim Hd) as [Hok|(e & He & [->|[[name ->]| ->]])]; eauto.
Qed.

Lemma construction_outcomes_witness :
  markers_nonempty spec_defaults = true /\
  ((exists rv, __init__ spec_defaults (lit "${a") (lit ".") = Ok rv)
   \/ __init__ spec_defaults (lit "${a") (lit ".") = Raise IndexError
   \/ (exists name,
         __init__ spec_defaults (lit "${a") (lit ".")
         = Raise (IncompleteInterpolationError name
                    (snd (PARAMETER_INTERPOLATION_SENTINELS spec_defaults))))
   \/ __init__ spec_defaults (lit "${a") (lit ".") = Raise (InterpolationError empty_name_msg)).
Proof.
  split; [reflexivity|].
  apply (construction_outcomes spec_defaults (lit "${a") (lit ".")). reflexivity.
Defined.

(** ** The further properties of rendering at example inputs *)

Lemma render_without_references_witness :
  exists rv,
    __init__ spec_defaults (lit "\${a} and \\") (lit ".") = Ok rv
    /\ forall ctx,
         render example_value EStr example_str example_context example_get_value rv ctx
         = (Ok (EStr (lit "${a} and \")), rv).
Proof.
  eexists. split; [vm_compute; reflexivity|].
  match goal with
  | |- forall ctx, render _ _ _ _ _ ?rv ctx = _ =>
      assert (H : __init__ spec_defaults (lit "\${a} and \\") (lit ".") = Ok rv)
        by (vm_compute; reflexivity);
      exact (render_without_references example_value EStr example_str example_context
               example_get_value spec_defaults (lit "\${a} and \\") (lit ".") rv H eq_refl)
  end.
Defined.

Lemma source_without_start_sentinel_witness :
  markers_nonempty spec_defaults = true /\
  exists rv,
    __init__ spec_defaults (lit "a } b") (lit ".") = Ok rv
    /\ fst (get_references rv) = []
    /\ (forall ctx, exists text,
          render example_value EStr example_str example_context example_get_value rv ctx
          = (Ok (EStr text), rv))
    /\ (contains (ESCAPE_CHARACTER spec_defaults) (lit "a } b") = false ->
        forall ctx,
          render example_value EStr example_str example_context example_get_value rv ctx
          = (Ok (EStr (lit "a } b")), rv)).
Proof.
  split; [reflexivity|].
  exact (source_without_start_sentinel example_value EStr example_str example_context
           example_get_value spec_defaults (lit "a } b") (lit ".") eq_refl eq_refl).
Defined.

Lemma render_substitutes_references_witness :
  exists rv,
    __init__ spec_defaults (lit "${favcolour}: ${answer}") (lit ".") = Ok rv
    /\ render example_value EStr example_str example_context example_get_value rv example_ctx
       = (Ok (EStr (lit "yellow: 42")), rv).
Proof.
  eexists. split; [vm_compute; reflexivity|].
  match goal with
  | |- render _ _ _ _ _ ?rv _ = _ =>
      assert (H : __init__ spec_defaults (lit "${favcolour}: ${answer}") (lit ".") = Ok rv)
        by (vm_compute; reflexivity);
      apply (render_substitutes_references example_value EStr example_str example_context
               example_get_value spec_defaults (lit "${favcolour}: ${answer}") (lit ".")
               rv example_ctx H)
  end.
  - intros name E. discriminate E.
  - constructor; [|constructor; [|constructor]].
    + exists (EStr (lit "yellow")), (lit "yellow"). split; reflexivity.
    + exists (EInt 42), (lit "42"). split; reflexivity.
Defined.

Lemma render_raises_first_unresolved_witness :
  exists before after,
    [lit "answer"; lit "x"; lit "y"] = before ++ lit "x" :: after
    /\ Forall (fun n => example_get_value (lit ".") n example_ctx <> None) before
    /\ example_get_value (lit ".") (lit "x") example_ctx = None.
Proof.
  destruct (__init__ spec_defaults (lit "${answer}${x}${y}") (lit ".")) as [rv| |] eqn:H.
  - assert (Hrv := H). vm_compute in Hrv. injection Hrv as Hrv.
    assert (Hrefs : fst (get_references rv) = [lit "answer"; lit "x"; lit "y"])
      by (rewrite <- Hrv; reflexivity).
    rewrite <- Hrefs.
    apply (render_raises_first_unresolved example_value EStr example_str example_context
             example_get_value spec_defaults (lit "${answer}${x}${y}") (lit ".") rv
             example_ctx (lit "x") H).
    rewrite <- Hrv. vm_compute. reflexivity.
  - vm_compute in H. discriminate H.
  - vm_compute in H. discriminate H.
Defined.


(** * [__repr__] *)

Section ReprProperties.

Variable value : Type.
Variable VStr : str -> value.
Variable py_str : value -> builtin_result.
Variable py_repr : value -> str.

Hypothesis py_str_VStr : forall s, py_str (VStr s) = Returns s.

Lemma assemble_for_rewrapped (d : defaults) (ps : list part) :
  forall ret,
  assemble_for value py_str ps
    (fun s => Ok (VStr (str_join s [fst (PARAMETER_INTERPOLATION_SENTINELS d);
                                    snd (PARAMETER_INTERPOLATION_SENTINELS d)]))) ret
  = Ok (ret ++ redisplay d ps).
Proof.
  induction ps as [|[[|] name] ps IH]; intros ret; cbn [assemble_for ptype data bind].
  - unfold redisplay. cbn. now rewrite app_nil_r.
  - rewrite IH. unfold redisplay. cbn. now rewrite <- app_assoc.
  - rewrite py_str_VStr. cbn [builtin_call bind]. rewrite IH.
    unfold redisplay, redisplay_part. cbn. now rewrite <- !app_assoc.
Qed.

(** X16: [__repr__] of a constructed object never raises and needs no
    context: it returns [RefValue(] followed by [repr()] of the literal
    texts and re-wrapped reference names, a comma and a space, [repr()] of
    the delimiter and [)], and leaves the object as it is; when
    [_has_escapes] is false the first [repr()] is that of the source. *)
Theorem repr_of_constructed (d : defaults) (s delim : str) (rv : RefValue) :
  __init__ d s delim = Ok rv ->
  __repr__ value VStr py_str py_repr d rv
  = (Ok (lit "RefValue(" ++ py_repr (VStr (redisplay d (_parts rv))) ++ lit ", "
         ++ py_repr (VStr delim) ++ lit ")"), rv)
  /\ (has_escapes rv = false -> redisplay d (_parts rv) = s).
Proof.
  intros H. destruct (init_refs _ _ _ _ H) as (Hrefs & Hs & Hdelim).
  destruct (init_ok _ _ _ _ H) as (toks & h & Hl & Hshape & E).
  destruct (lex_lossless _ _ _ Hl) as [Hcat Hok].
  destruct (parse_shape_redisplay d toks _ h Hok Hshape) as (_ & Hfalse & _).
  assert (Hsame : has_escapes rv = false -> redisplay d (_parts rv) = s).
  { unfold has_escapes. intros Hf. rewrite E in Hf. cbn in Hf. now rewrite (Hfalse Hf), Hcat. }
  split; [|exact Hsame].
  unfold __repr__, repr_assemble. rewrite (assemble_stored value VStr py_str _ _ Hrefs). cbv zeta.
  destruct (negb (0 <? length (map data (filter is_reference (_parts rv))))
            && negb (_has_escapes rv)) eqn:E1.
  - apply andb_prop in E1. destruct E1 as [_ E1]. apply negb_true_iff in E1.
    cbn [bind]. now rewrite Hs, Hdelim, (Hsame E1).
  - destruct ((length (_parts rv) =? 1)
              && (0 <? length (map data (filter is_reference (_parts rv))))) eqn:E2.
    + apply andb_prop in E2. destruct E2 as [E2 E3].
      apply Nat.eqb_eq in E2. apply Nat.ltb_lt in E3.
      destruct (single_reference _ E2 E3) as [name Hp]. rewrite Hp, Hdelim.
      cbn. unfold redisplay, redisplay_part. cbn. now rewrite app_nil_r.
    + rewrite assemble_for_rewrapped. cbn [bind app]. now rewrite Hdelim.
Qed.

End ReprProperties.

Lemma repr_of_constructed_witness :
  (forall s, example_str (EStr s) = Returns s) /\
  exists rv,
    __init__ spec_defaults (lit "x\y \${a}: ${b}") (lit ".") = Ok rv
    /\ __repr__ example_value EStr example_str example_repr spec_defaults rv
       = (Ok (lit "RefValue('x\\y ${a}: ${b}', '.')"), rv).
Proof.
  split; [reflexivity|].
  eexists. split; [vm_compute; reflexivity|].
  match goal with
  | |- __repr__ _ _ _ _ _ ?rv = _ =>
      assert (H : __init__ spec_defaults (lit "x\y \${a}: ${b}") (lit ".") = Ok rv)
        by (vm_compute; reflexivity);
      exact (proj1 (repr_of_constructed example_value EStr example_str example_repr
                      (fun s => eq_refl) spec_defaults (lit "x\y \${a}: ${b}") (lit ".")
                      rv H))
  end.
Defined.
